(** * The Algebra functorial construction (sage/categories/algebra_functor.py)

    A shallow embedding of [AlgebraFunctor], [GroupAlgebraFunctor] and
    [AlgebrasCategory], together with the parts of the surrounding
    free-module and category framework that these classes call. *)

From stdpp Require Import gmap strings list fin_maps.

(** ** Base rings *)

Class RingOps (K : Type) := {
  r_zero : K;
  r_one : K;
  r_add : K → K → K;
  r_mul : K → K → K;
  r_neg : K → K
}.

Global Hint Mode RingOps ! : typeclass_instances.

Declare Scope ring_scope.
Delimit Scope ring_scope with R.
Notation "0" := r_zero : ring_scope.
Notation "1" := r_one : ring_scope.
Infix "+" := r_add : ring_scope.
Infix "*" := r_mul : ring_scope.
Notation "- x" := (r_neg x) : ring_scope.

Class IsRing (K : Type) `{RingOps K} : Prop := {
  r_add_assoc (a b c : K) : (a + (b + c) = (a + b) + c)%R;
  r_add_comm (a b : K) : (a + b = b + a)%R;
  r_add_0_l (a : K) : (0 + a = a)%R;
  r_add_neg_r (a : K) : (a + - a = 0)%R;
  r_mul_assoc (a b c : K) : (a * (b * c) = (a * b) * c)%R;
  r_mul_1_l (a : K) : (1 * a = a)%R;
  r_mul_1_r (a : K) : (a * 1 = a)%R;
  r_mul_add_l (a b c : K) : (a * (b + c) = a * b + a * c)%R;
  r_mul_add_r (a b c : K) : ((a + b) * c = a * c + b * c)%R
}.

(** A morphism of rings, as a property of the underlying function. *)
Record RingMorphism {K K' : Type} `{RingOps K, RingOps K'} (f : K → K') : Prop := {
  rm_add (a b : K) : f (a + b)%R = (f a + f b)%R;
  rm_mul (a b : K) : f (a * b)%R = (f a * f b)%R;
  rm_one : f 1%R = 1%R
}.

(** The integers, and the field with two elements. *)
Global Instance Z_ring_ops : RingOps Z :=
  {| r_zero := 0%Z; r_one := 1%Z; r_add := Z.add; r_mul := Z.mul; r_neg := Z.opp |}.

Global Instance GF2_ring_ops : RingOps bool :=
  {| r_zero := false; r_one := true; r_add := xorb; r_mul := andb; r_neg := id |}.

(** ** Finite sums in a ring *)

Section BigSum.
Context {K : Type} `{RingOps K}.
Local Open Scope ring_scope.

Definition bigsum {A : Type} (l : list A) (F : A → K) : K :=
  foldr (λ a s, F a + s) 0 l.

End BigSum.

Global Arguments bigsum : simpl never.

(** ** Exceptions *)

Inductive Exception :=
| AssertionError
| TypeError (message : string).

Inductive result (A : Type) :=
| Ok (value : A)
| Raise (e : Exception).

Global Arguments Ok {A} value.
Global Arguments Raise {A} e.

Global Instance result_bind : MBind result :=
  λ A B k r, match r with Ok a => k a | Raise e => Raise e end.

(** ** Elements of the free module with basis indexed by [I]

    An element is its dictionary of monomial coefficients: a finite map
    from basis indices to coefficients. *)

Section FreeModule.
Context {I : Type} `{Countable I}.
Context {K : Type} `{RingOps K} `{!EqDecision K}.
Local Open Scope ring_scope.

(** Modelled from the spec: the elements of the free module are missing
    from src/.  They are formal linear combinations of the basis indices;
    no index is stored with a zero coefficient. *)
Definition normalized (x : gmap I K) : Prop :=
  map_Forall (λ _ c, c ≠ 0) x.

Definition coefficient (x : gmap I K) (g : I) : K :=
  default 0 (x !! g).

(** Modelled from the spec: the iteration over an element is missing
    from src/.  [for (g, c) in x] runs over the terms of [x], each index
    with its coefficient. *)
Definition terms (x : gmap I K) : list (I * K) := map_to_list x.

(** Adds [t.2] to the coefficient of [t.1], dropping the entry when
    the coefficient becomes zero. *)
Definition add_term (acc : gmap I K) (t : I * K) : gmap I K :=
  let v := coefficient acc t.1 + t.2 in
  if decide (v = 0) then delete t.1 acc else <[t.1 := v]> acc.

(** Modelled from the spec: [sum_of_terms] of the free-module framework
    is missing from src/.  The algebra is the space of formal linear
    combinations of the basis indices, so the sum of a sequence of terms
    [(index, coefficient)] adds up the coefficients given to each
    index. *)
Definition sum_of_terms (l : list (I * K)) : gmap I K :=
  foldl add_term ∅ l.

(** Modelled from the spec: [term] of the free-module framework is
    missing from src/: the element [coeff * B[g]], the coefficient
    defaulting to one. *)
Definition term (g : I) (coeff : option K) : gmap I K :=
  sum_of_terms [(g, default 1 coeff)].

(** The basis element indexed by [g]. *)
Definition monomial (g : I) : gmap I K := term g None.

(** Modelled from the spec: the module operations are missing from
    src/: the sum of two linear combinations and the multiplication by a
    scalar. *)
Definition element_add (x y : gmap I K) : gmap I K :=
  sum_of_terms (terms x ++ terms y).

Definition scalar_mul (c : K) (x : gmap I K) : gmap I K :=
  sum_of_terms ((λ t, (t.1, c * t.2)) <$> terms x).

(** The coefficient of index [k] carried by a single term. *)
Definition term_at (k : I) (t : I * K) : K :=
  if decide (t.1 = k) then t.2 else 0.

End FreeModule.

(** Modelled from the spec: the extension of a map given on the basis,
    by linearity and by bilinearity, is missing from src/. *)

Section Extension.
Context {I J : Type} `{Countable I} `{Countable J}.
Context {K : Type} `{RingOps K} `{!EqDecision K}.
Local Open Scope ring_scope.

Definition linear_extension (on_basis : I → gmap J K) (x : gmap I K) : gmap J K :=
  sum_of_terms
    (terms x ≫= λ t, (λ u, (u.1, t.2 * u.2)) <$> terms (on_basis t.1)).

Definition bilinear_extension (on_basis : I → I → gmap J K)
    (x y : gmap I K) : gmap J K :=
  sum_of_terms
    (terms x ≫= λ t1, terms y ≫= λ t2,
       (λ u, (u.1, (t1.2 * t2.2) * u.2)) <$> terms (on_basis t1.1 t2.1)).

(** The contribution of a pair of terms to the coefficient of [k] in a
    bilinear extension. *)
Definition kernel (on_basis : I → I → gmap J K) (k : J) (t1 t2 : I * K) : K :=
  (t1.2 * t2.2) * coefficient (on_basis t1.1 t2.1) k.

End Extension.

Section AlgebraOperations.
Context {I : Type} `{Countable I}.
Context {K : Type} `{RingOps K} `{!EqDecision K}.

(** Modelled from the spec: the multiplication of the algebra of [S] is
    missing from src/.  It is induced by the operation [op] of [S]: the
    product of the basis elements indexed by [g1] and [g2] is the basis
    element indexed by [op g1 g2], and this is extended by bilinearity. *)
Definition product_on_basis (op : I → I → I) (g1 g2 : I) : gmap I K :=
  monomial (op g1 g2).

Definition product (op : I → I → I) (x y : gmap I K) : gmap I K :=
  bilinear_extension (product_on_basis op) x y.

(** Modelled from the spec: the unit of the algebra is missing from
    src/.  It is the basis element indexed by the unit [e] of [S]. *)
Definition algebra_one (e : I) : gmap I K := monomial e.

(** Modelled from the spec: [tensor] is missing from src/.  The tensor
    product of two elements lives in the module whose basis is indexed
    by pairs; on basis elements it is [B[g] # B[h]], indexed by
    [(g, h)]. *)
Definition tensor (x y : gmap I K) : gmap (I * I) K :=
  bilinear_extension (λ g h, term (g, h) None) x y.

End AlgebraOperations.

(** ** The category framework used by the functors

    [algebra_functor.py] calls into the surrounding framework: the
    membership test [x in Rings()] and the method [S.algebra(R,
    category=...)] of parents.  They are the fields of [Framework]; the
    classes of the source file are embedded over an arbitrary one. *)

Class Framework := {
  Parent : Type;
  Category : Type;
  (** [Rings()] *)
  Rings : Category;
  (** [x in C] *)
  contains : Category → Parent → bool;
  (** [S.algebra(base_ring, category=category)]; the keyword defaults
      to [None]. *)
  algebra : Parent → Parent → option Category → result Parent
}.

(** Homsets and morphisms.  A morphism carries its parent homset and the
    function it applies. *)
Record Homset `{Framework} := Hom {
  hom_domain : Parent;
  hom_codomain : Parent;
  hom_category : Category
}.

Global Arguments Hom {_} hom_domain hom_codomain hom_category.

Record Morphism `{Framework} (A B : Type) := SetMorphism {
  parent : Homset;
  function : A → B
}.

Global Arguments SetMorphism {_ A B} parent function.
Global Arguments parent {_ A B} _.
Global Arguments function {_ A B} _ _.

Definition domain `{Framework} {A B : Type} (f : Morphism A B) : Parent :=
  hom_domain (parent f).

Definition codomain `{Framework} {A B : Type} (f : Morphism A B) : Parent :=
  hom_codomain (parent f).

Definition identity_morphism `{Framework} {A : Type} (R : Parent) : Morphism A A :=
  SetMorphism (Hom R R Rings) (λ a, a).

Definition compose_morphism `{Framework} {A B C : Type}
    (g : Morphism B C) (f : Morphism A B) : Morphism A C :=
  SetMorphism (Hom (domain f) (codomain g) Rings) (λ a, function g (function f a)).

(** ** class AlgebraFunctor *)

Module AlgebraFunctor.
Section AlgebraFunctor.
Context `{Framework}.

Record t := { _base_ring : Parent }.

Definition _functor_name : string := "algebra".
Definition _functor_category : string := "Algebras".

(** [assert base_ring in Rings(); self._base_ring = base_ring] *)
Definition __init__ (base_ring : Parent) : result t :=
  if contains Rings base_ring
  then Ok {| _base_ring := base_ring |}
  else Raise AssertionError.

Definition base_ring (self : t) : Parent := _base_ring self.

(** [return G.algebra(self._base_ring, category=category)] *)
Definition __call__ (self : t) (G : Parent) (category : option Category) : result Parent :=
  algebra G (_base_ring self) category.

End AlgebraFunctor.
End AlgebraFunctor.

(** ** class GroupAlgebraFunctor *)

Module GroupAlgebraFunctor.
Section GroupAlgebraFunctor.
Context `{Framework}.

Record t := {
  __group : Parent;
  functor_domain : Category;
  functor_codomain : Category
}.

(** [self.__group = group; ConstructionFunctor.__init__(self, Rings(), Rings())] *)
Definition __init__ (group : Parent) : t :=
  {| __group := group; functor_domain := Rings; functor_codomain := Rings |}.

Definition group (self : t) : Parent := __group self.

(** [return self.__group.algebra(base_ring)] *)
Definition _apply_functor (self : t) (base_ring : Parent) : result Parent :=
  algebra (__group self) base_ring None.

(** Modelled from the spec: the call operator of functors is missing
    from src/.  Applied to a ring, the functor returns the group algebra
    built by [_apply_functor]. *)
Definition __call__ (self : t) (x : Parent) : result Parent :=
  _apply_functor self x.

(** The function of the lifted morphism:
    [lambda x: codomain.sum_of_terms((g, f(c)) for (g, c) in x)]. *)
Definition on_coefficients {I : Type} `{Countable I}
    {K K' : Type} `{RingOps K'} `{!EqDecision K'}
    (f : K → K') (x : gmap I K) : gmap I K' :=
  sum_of_terms ((λ t, (t.1, f t.2)) <$> terms x).

Definition _apply_functor_to_morphism {I : Type} `{Countable I}
    {K K' : Type} `{RingOps K'} `{!EqDecision K'}
    (self : t) (f : Morphism K K') : result (Morphism (gmap I K) (gmap I K')) :=
  domain ← __call__ self (domain f);
  codomain ← __call__ self (codomain f);
  Ok (SetMorphism (Hom domain codomain Rings) (on_coefficients (function f))).

End GroupAlgebraFunctor.
End GroupAlgebraFunctor.

(** ** class AlgebrasCategory *)

Module AlgebrasCategory.

Definition _functor_category : string := "Algebras".

(** [s[:-1]]: the string without its last character; the empty string
    stays empty. *)
Definition but_last (s : string) : string :=
  String.substring 0 (String.length s - 1) s.

(** ["{} algebras over {}".format(
       self.base_category()._repr_object_names()[:-1], self.base_ring())],
    where [object_names] is the text returned by
    [self.base_category()._repr_object_names()] and [base_ring] the text
    of [self.base_ring()]. *)
Definition _repr_object_names (object_names base_ring : string) : string :=
  but_last object_names +:+ " algebras over " +:+ base_ring.

Section ClassCall.
Context `{Framework}.
Context {CategoryClass Class : Type} `{EqDecision CategoryClass}.

(** The class [AlgebrasCategory] itself. *)
Variable AlgebrasCategory : Class.
(** [cls._functor_category] *)
Variable functor_category_of : Class → string.
(** [cls._base_category_class[0]] *)
Variable _base_category_class : Class → CategoryClass.
(** [getattr(Cat, name)] when it is a category class nested in [Cat]. *)
Variable getattr : CategoryClass → string → option Class.

(** [Cat()]: the categories concerned take no argument, so an instance
    is determined by its class. *)
Record CategoryInstance := Instantiate { __class__ : CategoryClass }.

(** The value of a positional argument: [None], a category or a parent. *)
Inductive Argument :=
| ArgNone
| ArgCategory (c : CategoryInstance)
| ArgParent (p : Parent).

(** Category objects: the unique instance of a class for given
    arguments, or the default category built from the super categories
    when the base category has no nested class for the construction. *)
Inductive CategoryObject :=
| UniqueRepresentation (cls : Class) (category : Argument) (R : Argument)
| default_super_categories (name : string) (category : CategoryInstance) (R : Argument).

Definition isinstance (x : Argument) (Cat : CategoryClass) : bool :=
  match x with
  | ArgCategory c => bool_decide (__class__ c = Cat)
  | _ => false
  end.

(** Modelled from the spec: [category_of] of the functorial construction
    framework is missing from src/.  It returns the image of [category]
    under the construction named [cls._functor_category]: the nested
    class of that name called on [category], when the class of
    [category] has one.  [call] is the class call. *)
Definition category_of_with
    (call : Class → Argument → Argument → option CategoryObject)
    (cls : Class) (category : CategoryInstance) (R : Argument) : option CategoryObject :=
  match getattr (__class__ category) (functor_category_of cls) with
  | Some functor_category => call functor_category (ArgCategory category) R
  | None => Some (default_super_categories (functor_category_of cls) category R)
  end.

(** [__classcall__(cls, category=None, R=None)].  The class call and
    [category_of] call each other; [fuel] bounds the depth of calls. *)
Fixpoint __classcall__ (fuel : nat) (cls : Class) (category R : Argument)
    : option CategoryObject :=
  match fuel with
  | O => None
  | S fuel =>
      let base_category_class := _base_category_class cls in
      if isinstance category base_category_class
      then Some (UniqueRepresentation cls category R)
      else category_of_with (__classcall__ fuel) cls
             (Instantiate base_category_class) category
  end.

Definition category_of (fuel : nat) : Class → CategoryInstance → Argument → option CategoryObject :=
  category_of_with (__classcall__ fuel).

(** Modelled from the spec: the method [Algebras] of categories is
    missing from src/.  [Cat().Algebras(base_ring)] is the image of the
    category under the Algebras construction, for [base_ring] a ring. *)
Definition Algebras (fuel : nat) (self : CategoryInstance) (base_ring : Parent)
    : option (result CategoryObject) :=
  if contains Rings base_ring
  then Ok <$> category_of fuel AlgebrasCategory self (ArgParent base_ring)
  else Some (Raise AssertionError).

End ClassCall.

Module ParentMethods.
Section ParentMethods.
Context {I : Type} `{Countable I}.
Context {K : Type} `{RingOps K} `{!EqDecision K}.

(** [g = self.term(g); return tensor([g, g])] *)
Definition coproduct_on_basis (g : I) : gmap (I * I) K :=
  let g := term g None in
  tensor g g.

(** Modelled from the spec: the coproduct of the coalgebra framework is
    missing from src/.  [coproduct_on_basis] is used to compute the
    coproduct of any element, by linearity. *)
Definition coproduct (x : gmap I K) : gmap (I * I) K :=
  linear_extension coproduct_on_basis x.

End ParentMethods.
End ParentMethods.

End AlgebrasCategory.

(** ** The category lattice and the algebra of a parent

    Modelled from the spec: the categories of the lattice (magmas,
    semigroups, monoids, groups and their additive analogues, rings),
    the parents and the method [algebra] of parents are missing from
    src/.  A category of the lattice is given by the axioms its objects
    satisfy; a subcategory has more axioms. *)

Module Sage.

Inductive CategoryAxiom :=
| Magma | Associative | Unital | Inverse | Commutative
| AdditiveMagma | AdditiveAssociative | AdditiveUnital | AdditiveInverse
| AdditiveCommutative
| Distributive | Division | Finite.

Global Instance CategoryAxiom_eq_dec : EqDecision CategoryAxiom.
Proof. solve_decision. Defined.

Definition CategoryAxiom_code (a : CategoryAxiom) : nat :=
  match a with
  | Magma => 0 | Associative => 1 | Unital => 2 | Inverse => 3
  | Commutative => 4 | AdditiveMagma => 5 | AdditiveAssociative => 6
  | AdditiveUnital => 7 | AdditiveInverse => 8 | AdditiveCommutative => 9
  | Distributive => 10 | Division => 11 | Finite => 12
  end.

Definition CategoryAxiom_decode (n : nat) : CategoryAxiom :=
  match n with
  | 0 => Magma | 1 => Associative | 2 => Unital | 3 => Inverse
  | 4 => Commutative | 5 => AdditiveMagma | 6 => AdditiveAssociative
  | 7 => AdditiveUnital | 8 => AdditiveInverse | 9 => AdditiveCommutative
  | 10 => Distributive | 11 => Division | _ => Finite
  end.

Global Instance CategoryAxiom_countable : Countable CategoryAxiom.
Proof.
  apply (inj_countable' CategoryAxiom_code CategoryAxiom_decode).
  by intros [].
Defined.

Abbreviation Category := (gset CategoryAxiom).

Definition Sets : Category := ∅.
Definition Magmas : Category := {[Magma]}.
Definition Semigroups : Category := {[Magma; Associative]}.
Definition Monoids : Category := {[Magma; Associative; Unital]}.
Definition Groups : Category := {[Magma; Associative; Unital; Inverse]}.
Definition AdditiveMagmas : Category := {[AdditiveMagma]}.
Definition AdditiveSemigroups : Category := {[AdditiveMagma; AdditiveAssociative]}.
Definition AdditiveMonoids : Category :=
  {[AdditiveMagma; AdditiveAssociative; AdditiveUnital]}.
Definition AdditiveGroups : Category :=
  {[AdditiveMagma; AdditiveAssociative; AdditiveUnital; AdditiveInverse]}.
Definition CommutativeAdditiveGroups : Category :=
  AdditiveGroups ∪ {[AdditiveCommutative]}.
Definition Rings : Category :=
  Monoids ∪ CommutativeAdditiveGroups ∪ {[Distributive]}.
Definition Fields : Category := Rings ∪ {[Commutative; Division]}.

(** Modelled from the spec: [C.is_subcategory(C')] is missing from
    src/. *)
Definition is_subcategory (C C' : Category) : bool := bool_decide (C' ⊆ C).

(** Modelled from the spec: the parents are missing from src/.  A parent
    is either given with its category, cardinality ([None] when
    infinite) and characteristic, or is the algebra of [group] over
    [base_ring] built in [category.Algebras(base_ring)]. *)
Inductive Parent :=
| Atomic (name : string) (category : Category)
    (cardinality : option N) (characteristic : N)
| GroupAlgebra_class (base_ring : Parent) (group : Parent) (category : Category).

Global Instance Parent_eq_dec : EqDecision Parent.
Proof. solve_decision. Defined.

(** Modelled from the spec: the operation of the parent that the
    multiplication of its algebra extends, chosen by the category. *)
Inductive Operation := Multiplication | Addition.

Definition extended_structure (category : Category) : list Operation :=
  (if bool_decide (Magma ∈ category) then [Multiplication] else []) ++
  (if bool_decide (AdditiveMagma ∈ category) then [Addition] else []).

(** The axiom of the multiplication of the algebra that an axiom of the
    extended operation induces. *)
Definition induced_axiom (o : Operation) (a : CategoryAxiom) : option CategoryAxiom :=
  match o, a with
  | Multiplication, Magma | Addition, AdditiveMagma => Some Magma
  | Multiplication, Associative | Addition, AdditiveAssociative => Some Associative
  | Multiplication, Unital | Addition, AdditiveUnital => Some Unital
  | Multiplication, Commutative | Addition, AdditiveCommutative => Some Commutative
  | _, _ => None
  end.

(** Modelled from the spec: the axioms of the algebra itself, a module
    with a distributive multiplication when one operation of the parent
    is extended. *)
Definition algebra_structure (category : Category) : Category :=
  CommutativeAdditiveGroups ∪
  match extended_structure category with
  | [o] => {[Distributive]} ∪ set_omap (induced_axiom o) category
  | _ => ∅
  end.

(** [P.category()] *)
Definition parent_category (P : Parent) : Category :=
  match P with
  | Atomic _ category _ _ => category
  | GroupAlgebra_class _ _ category => algebra_structure category
  end.

Definition contains (C : Category) (P : Parent) : bool :=
  is_subcategory (parent_category P) C.

Fixpoint repr (P : Parent) : string :=
  match P with
  | Atomic name _ _ _ => name
  | GroupAlgebra_class base_ring group _ =>
      "Algebra of " +:+ repr group +:+ " over " +:+ repr base_ring
  end.

Definition ambiguous_message (self : Parent) : string :=
  " `S = " +:+ repr self +:+
  "` is both an additive and a multiplicative semigroup. " +:+
  "Constructing its algebra is ambiguous. " +:+
  "Please use, e.g., S.algebra(QQ, category=Semigroups())".

(** Modelled from the spec: the method [algebra] of parents is missing
    from src/.  In [S.algebra(base_ring, category=category)] the
    category defaults to that of [S]; a category that is both a
    multiplicative and an additive semigroup is refused as ambiguous;
    otherwise the algebra is built in [category.Algebras(base_ring)]. *)
Definition algebra (self base_ring : Parent) (category : option Category) : result Parent :=
  let category := default (parent_category self) category in
  if is_subcategory category Semigroups && is_subcategory category AdditiveSemigroups
  then Raise (TypeError (ambiguous_message self))
  else Ok (GroupAlgebra_class base_ring self category).

Global Instance framework : Framework :=
  Build_Framework Parent Category Rings contains algebra.

Definition cardinality (P : Parent) : option N :=
  match P with
  | Atomic _ _ cardinality _ => cardinality
  | GroupAlgebra_class _ _ _ => None
  end.

Fixpoint characteristic (P : Parent) : N :=
  match P with
  | Atomic _ _ _ characteristic => characteristic
  | GroupAlgebra_class base_ring _ _ => characteristic base_ring
  end.

(** Modelled from the spec: the categories of unital and of commutative
    algebras are missing from src/; their members are recognised by
    their axioms. *)
Definition is_unital (A : Parent) : bool :=
  contains {[Magma; Distributive; Unital]} A.

Definition is_commutative (A : Parent) : bool :=
  contains {[Magma; Distributive; Commutative]} A.

(** Maschke's condition: the characteristic does not divide the
    cardinality, which is finite. *)
Definition maschke (card : option N) (char : N) : bool :=
  match card with
  | Some n => negb (n `mod` char =? 0)%N
  | None => false
  end.

(** The categories of the supported lattice carry one structure: the
    multiplicative categories (magmas, semigroups, monoids, groups) and
    their additive analogues. *)
Definition multiplicative (C : Category) : bool :=
  bool_decide (Magma ∈ C) && negb (bool_decide (AdditiveMagma ∈ C)).

Definition additive (C : Category) : bool :=
  bool_decide (AdditiveMagma ∈ C) && negb (bool_decide (Magma ∈ C)).

Definition supported (C : Category) : bool := multiplicative C || additive C.

End Sage.

(** ** The categories of algebras of the lattice and the elements of an
    algebra *)

Module Construction.
Import Sage.

(** Modelled from the spec: the classes of the categories of algebras
    are missing from src/: the class [AlgebrasCategory] itself and, for
    each category of the lattice, the class of algebras nested in it,
    which inherits the name of the construction. *)
Inductive Class :=
| Abstract
| Nested (Cat : Category).

Definition functor_category_of (cls : Class) : string :=
  AlgebrasCategory._functor_category.

(** The abstract class has no base category class and is never called;
    the value given for it is not used. *)
Definition _base_category_class (cls : Class) : Category :=
  match cls with
  | Nested Cat => Cat
  | Abstract => Sets
  end.

Definition getattr (Cat : Category) (name : string) : option Class :=
  if String.eqb name AlgebrasCategory._functor_category
  then Some (Nested Cat)
  else None.

Abbreviation CategoryObject :=
  (@AlgebrasCategory.CategoryObject framework Category Class).

(** [C.Algebras(R)], built through the class call of the nested class. *)
Definition Algebras (C : Category) (R : Parent) : option (result CategoryObject) :=
  AlgebrasCategory.Algebras Abstract functor_category_of _base_category_class
    getattr 2 (AlgebrasCategory.Instantiate C) R.

(** Modelled from the spec: [A.category()] is missing from src/.  The
    algebra of a parent built in [category.Algebras(base_ring)] has that
    category. *)
Definition category (A : Parent) : option (result CategoryObject) :=
  match A with
  | GroupAlgebra_class base_ring _ category => Algebras category base_ring
  | Atomic _ _ _ _ => None
  end.

(** Modelled from the spec: the order on the categories of algebras is
    missing from src/.  The construction is covariant: over the same
    ring, the algebras of a category are algebras of each of its super
    categories. *)
Definition is_subcategory (a c : CategoryObject) : bool :=
  match a, c with
  | AlgebrasCategory.UniqueRepresentation (Nested E) _ (AlgebrasCategory.ArgParent R),
    AlgebrasCategory.UniqueRepresentation (Nested C) _ (AlgebrasCategory.ArgParent R') =>
      bool_decide (R = R') && Sage.is_subcategory E C
  | _, _ => false
  end.

(** [A in C.Algebras(R)] *)
Definition member (A : Parent) (C : Category) (R : Parent) : bool :=
  match category A, Algebras C R with
  | Some (Ok a), Some (Ok c) => is_subcategory a c
  | _, _ => false
  end.

(** Modelled from the spec: the categories of Hopf, of finite
    dimensional and of semisimple algebras are missing from src/.  The
    algebra of a group, a member of [Groups().Algebras(R)], is a Hopf
    algebra; an algebra in the algebras of finite structures, or the
    algebra of a finite parent, is finite dimensional; by Maschke's
    theorem, the algebra of a finite group over a field is semisimple
    when the characteristic of the field does not divide the cardinality
    of the group. *)
Definition is_hopf_algebra (A : Parent) : bool :=
  match A with
  | GroupAlgebra_class base_ring _ _ => member A Groups base_ring
  | Atomic _ _ _ _ => false
  end.

Definition is_finite_dimensional (A : Parent) : bool :=
  match A with
  | GroupAlgebra_class base_ring group _ =>
      member A {[Finite]} base_ring || contains {[Finite]} group
  | Atomic _ _ _ _ => false
  end.

Definition is_semisimple (A : Parent) : bool :=
  match A with
  | GroupAlgebra_class base_ring group _ =>
      member A (Groups ∪ {[Finite]}) base_ring
      && contains Fields base_ring
      && maschke (cardinality group) (characteristic base_ring)
  | Atomic _ _ _ _ => false
  end.

(** Modelled from the spec: the elements of parents are missing from
    src/.  A structure is a parent together with the operations on its
    elements, of type [I]: the multiplication [g * h] and the addition
    [g + h], each present when the structure has it. *)
Record Structure (I : Type) := {
  structure_parent : Parent;
  multiplication : option (I → I → I);
  addition : option (I → I → I)
}.

Global Arguments structure_parent {I} _.
Global Arguments multiplication {I} _.
Global Arguments addition {I} _.

Definition operation {I : Type} (X : Structure I) (o : Operation) : option (I → I → I) :=
  match o with
  | Multiplication => multiplication X
  | Addition => addition X
  end.

(** Modelled from the spec: the elements of the algebra built by
    [GroupAlgebra_class] are missing from src/.  The algebra of [X] is
    the free module on the elements of [X], with coefficients in the
    type [K] of the elements of the base ring: its basis is indexed by
    the elements of [X], and its multiplication is induced by the
    operation of [X] that the category of the construction extends. *)
Record Operations (I K : Type) `{Countable I} := {
  basis : I → gmap I K;
  multiply : option (gmap I K → gmap I K → gmap I K)
}.

Global Arguments basis {I K _ _} _ _.
Global Arguments multiply {I K _ _} _.

Definition operations {I K : Type} `{Countable I} `{RingOps K} `{!EqDecision K}
    (X : Structure I) (A : Parent) : option (Operations I K) :=
  match A with
  | GroupAlgebra_class _ group category =>
      if decide (group = structure_parent X)
      then Some {| basis := monomial;
                   multiply :=
                     match extended_structure category with
                     | [o] => product <$> operation X o
                     | _ => None
                     end |}
      else None
  | Atomic _ _ _ _ => None
  end.

End Construction.

(** ** Parents and morphisms of the examples *)

Module Examples.
Import Sage.

Definition QQ : Parent := Atomic "Rational Field" Fields None 0.
Definition ZZ : Parent := Atomic "Integer Ring" (Rings ∪ {[Commutative]}) None 0.
Definition GF2 : Parent :=
  Atomic "Finite Field of size 2" (Fields ∪ {[Finite]}) (Some 2%N) 2.
Definition GF5 : Parent :=
  Atomic "Finite Field of size 5" (Fields ∪ {[Finite]}) (Some 5%N) 5.
Definition GF7 : Parent :=
  Atomic "Finite Field of size 7" (Fields ∪ {[Finite]}) (Some 7%N) 7.
Definition Z3 : Parent :=
  Atomic "Ring of integers modulo 3" (Fields ∪ {[Finite]}) (Some 3%N) 3.
Definition SymmetricGroup2 : Parent :=
  Atomic "Symmetric group of order 2! as a permutation group"
    (Groups ∪ {[Finite; Commutative]}) (Some 2%N) 0.
Definition SymmetricGroup5 : Parent :=
  Atomic "Symmetric group of order 5! as a permutation group"
    (Groups ∪ {[Finite]}) (Some 120%N) 0.
Definition DihedralGroup3 : Parent :=
  Atomic "Dihedral group of order 6 as a permutation group"
    (Groups ∪ {[Finite]}) (Some 6%N) 0.
Definition CyclicPermutationGroup10 : Parent :=
  Atomic "Cyclic group of order 10 as a permutation group"
    (Groups ∪ {[Finite; Commutative]}) (Some 10%N) 0.
Definition FreeMonoid : Parent :=
  Atomic "An example of a monoid: the free monoid generated by ('a', 'b', 'c', 'd')"
    Monoids None 0.
Definition FreeCommutativeAdditiveMonoid : Parent :=
  Atomic "An example of a commutative monoid: the free commutative monoid generated by ('a', 'b', 'c', 'd')"
    (AdditiveMonoids ∪ {[AdditiveCommutative]}) None 0.
Definition PrimeNumbers : Parent :=
  Atomic "Set of prime numbers (basic implementation)" Sets None 0.

(** [AlgebraFunctor(QQ)] *)
Definition F_QQ : @AlgebraFunctor.t framework :=
  {| AlgebraFunctor._base_ring := QQ |}.

(** The coercion of the integers into the field with two elements. *)
Definition reduction_mod_2 : Morphism Z bool :=
  SetMorphism (Hom ZZ GF2 Rings) Z.odd.

(** The elements of the symmetric group on two letters: [false] is the
    identity and [true] the transposition; the product is [xorb]. *)
Definition transposition : bool := true.

(** [2*() + 3*(1,2)] and [() + (1,2)] over the integers. *)
Definition element_a : gmap bool Z := sum_of_terms [(false, 2%Z); (true, 3%Z)].
Definition element_b : gmap bool Z := sum_of_terms [(false, 1%Z); (true, 1%Z)].

(** [GroupAlgebraFunctor(SymmetricGroup(2))] and the lift of the
    reduction modulo two that it returns. *)
Definition F_SymmetricGroup2 : @GroupAlgebraFunctor.t framework :=
  GroupAlgebraFunctor.__init__ SymmetricGroup2.

Definition lift_mod_2 : Morphism (gmap bool Z) (gmap bool bool) :=
  SetMorphism
    (Hom (GroupAlgebra_class ZZ SymmetricGroup2 (Groups ∪ {[Finite; Commutative]}))
         (GroupAlgebra_class GF2 SymmetricGroup2 (Groups ∪ {[Finite; Commutative]}))
         Rings)
    (GroupAlgebraFunctor.on_coefficients Z.odd).

(** The identity of the integers and its lift. *)
Definition identity_ZZ : Morphism Z Z := identity_morphism ZZ.

Definition lift_identity_ZZ : Morphism (gmap bool Z) (gmap bool Z) :=
  SetMorphism
    (Hom (GroupAlgebra_class ZZ SymmetricGroup2 (Groups ∪ {[Finite; Commutative]}))
         (GroupAlgebra_class ZZ SymmetricGroup2 (Groups ∪ {[Finite; Commutative]}))
         Rings)
    (GroupAlgebraFunctor.on_coefficients (λ a : Z, a)).

(** [AlgebraFunctor(ZZ)] *)
Definition F_ZZ : @AlgebraFunctor.t framework :=
  {| AlgebraFunctor._base_ring := ZZ |}.

(** The symmetric group on two letters with its elements, and the ring
    of integers modulo 3 with its elements, the residues [0], [1] and
    [2], and its two operations. *)
Definition SymmetricGroup2_elements : Construction.Structure bool :=
  {| Construction.structure_parent := SymmetricGroup2;
     Construction.multiplication := Some xorb;
     Construction.addition := None |}.

Definition Z3_elements : Construction.Structure Z :=
  {| Construction.structure_parent := Z3;
     Construction.multiplication := Some (λ a b, (a * b) `mod` 3)%Z;
     Construction.addition := Some (λ a b, (a + b) `mod` 3)%Z |}.

(** The classes of the multiplicative categories and the classes of
    algebras nested in them. *)
Inductive CategoryClass :=
| SetsClass | MagmasClass | SemigroupsClass | MonoidsClass | GroupsClass.

Global Instance CategoryClass_eq_dec : EqDecision CategoryClass.
Proof. solve_decision. Defined.

Inductive AlgebrasClass :=
| AlgebrasCategoryClass
| NestedAlgebras (Cat : CategoryClass).

Definition functor_category_of (cls : AlgebrasClass) : string := "Algebras".

Definition base_category_class (cls : AlgebrasClass) : CategoryClass :=
  match cls with
  | NestedAlgebras Cat => Cat
  | AlgebrasCategoryClass => SetsClass
  end.

Definition nested_class (Cat : CategoryClass) (name : string) : option AlgebrasClass :=
  if String.eqb name "Algebras" then Some (NestedAlgebras Cat) else None.

End Examples.

(** * Properties *)

(** ** The rings used in examples *)

Global Instance Z_is_ring : IsRing Z.
Proof. split; unfold r_add, r_mul, r_zero, r_one, r_neg; simpl; intros; lia. Qed.

Global Instance GF2_is_ring : IsRing bool.
Proof.
  split; unfold r_add, r_mul, r_zero, r_one, r_neg; simpl;
    repeat intros []; reflexivity.
Qed.

(** Reduction modulo two is a morphism of rings from the integers to the
    field with two elements. *)
Lemma Z_odd_ring_morphism : RingMorphism Z.odd.
Proof.
  split; unfold r_add, r_mul, r_one; simpl.
  - intros a b. by rewrite Z.odd_add.
  - intros a b. by rewrite Z.odd_mul.
  - done.
Qed.

(** ** Ring laws and finite sums *)

Section RingFacts.
Context {K : Type} `{IsRing K}.
Local Open Scope ring_scope.

Lemma r_add_0_r (a : K) : a + 0 = a.
  Proof. by rewrite r_add_comm, r_add_0_l. Qed.

Lemma r_add_neg_l (a : K) : - a + a = 0.
  Proof. by rewrite r_add_comm, r_add_neg_r. Qed.

Lemma r_add_cancel_l (a b c : K) : a + b = a + c → b = c.
  Proof.
    intros Heq.
    rewrite <- (r_add_0_l b), <- (r_add_0_l c), <- (r_add_neg_l a).
    by rewrite <- !r_add_assoc, Heq.
  Qed.

Lemma r_mul_0_l (a : K) : 0 * a = 0.
  Proof.
    apply (r_add_cancel_l (0 * a)).
    by rewrite <- r_mul_add_r, r_add_0_l, r_add_0_r.
  Qed.

Lemma r_mul_0_r (a : K) : a * 0 = 0.
  Proof.
    apply (r_add_cancel_l (a * 0)).
    by rewrite <- r_mul_add_l, r_add_0_l, r_add_0_r.
  Qed.

Lemma r_add_swap (a b c : K) : a + (b + c) = b + (a + c).
  Proof. by rewrite !r_add_assoc, (r_add_comm a b). Qed.

Lemma bigsum_nil {A} (F : A → K) : bigsum [] F = 0.
  Proof. done. Qed.

Lemma bigsum_cons {A} (a : A) l (F : A → K) :
    bigsum (a :: l) F = F a + bigsum l F.
  Proof. done. Qed.

Lemma bigsum_app {A} (l k : list A) (F : A → K) :
    bigsum (l ++ k) F = bigsum l F + bigsum k F.
  Proof.
    induction l as [|a l IH]; simpl.
    - by rewrite bigsum_nil, r_add_0_l.
    - by rewrite !bigsum_cons, IH, r_add_assoc.
  Qed.

Lemma bigsum_ext {A} (l : list A) (F G : A → K) :
    (∀ a, a ∈ l → F a = G a) → bigsum l F = bigsum l G.
  Proof.
    induction l as [|a l IH]; intros Hfg; [done|].
    rewrite !bigsum_cons, Hfg, IH; [done| |left].
    intros b Hb. apply Hfg. by right.
  Qed.

Lemma bigsum_zero {A} (l : list A) (F : A → K) :
    (∀ a, a ∈ l → F a = 0) → bigsum l F = 0.
  Proof.
    induction l as [|a l IH]; intros Hz; [done|].
    rewrite bigsum_cons, Hz, IH, ?r_add_0_l; [done| |left].
    intros b Hb. apply Hz. by right.
  Qed.

Lemma bigsum_fmap {A B} (h : A → B) (l : list A) (F : B → K) :
    bigsum (h <$> l) F = bigsum l (F ∘ h).
  Proof.
    induction l as [|a l IH]; [done|].
    by rewrite fmap_cons, !bigsum_cons, IH.
  Qed.

Lemma bigsum_bind {A B} (h : A → list B) (l : list A) (F : B → K) :
    bigsum (l ≫= h) F = bigsum l (λ a, bigsum (h a) F).
  Proof.
    induction l as [|a l IH]; [done|].
    by rewrite bind_cons, bigsum_app, bigsum_cons, IH.
  Qed.

Lemma bigsum_perm {A} (l k : list A) (F : A → K) :
    l ≡ₚ k → bigsum l F = bigsum k F.
  Proof.
    induction 1 as [|a l k _ IH|a b l|l k m _ IH1 _ IH2].
    - done.
    - by rewrite !bigsum_cons, IH.
    - rewrite !bigsum_cons. apply r_add_swap.
    - by rewrite IH1.
  Qed.

Lemma bigsum_plus {A} (l : list A) (F G : A → K) :
    bigsum l (λ a, F a + G a) = bigsum l F + bigsum l G.
  Proof.
    induction l as [|a l IH].
    - by rewrite !bigsum_nil, r_add_0_l.
    - rewrite !bigsum_cons, IH, <- !r_add_assoc. f_equal. apply r_add_swap.
  Qed.

Lemma bigsum_mul_l {A} (c : K) (l : list A) (F : A → K) :
    c * bigsum l F = bigsum l (λ a, c * F a).
  Proof.
    induction l as [|a l IH].
    - rewrite !bigsum_nil. apply r_mul_0_r.
    - by rewrite !bigsum_cons, r_mul_add_l, IH.
  Qed.

End RingFacts.

Section MorphismFacts.
Context {K K' : Type} `{IsRing K} `{IsRing K'}.
Context (f : K → K') (Hf : RingMorphism f).
Local Open Scope ring_scope.

Lemma rm_zero : f 0 = 0.
  Proof.
    apply (r_add_cancel_l (f 0)).
    by rewrite <- (rm_add f Hf), r_add_0_l, r_add_0_r.
  Qed.

Lemma rm_bigsum {A} (l : list A) (F : A → K) :
    f (bigsum l F) = bigsum l (f ∘ F).
  Proof.
    induction l as [|a l IH].
    - apply rm_zero.
    - by rewrite !bigsum_cons, (rm_add f Hf), IH.
  Qed.
End MorphismFacts.

(** ** Coefficients of sums of terms *)

Section FreeModuleFacts.
Context {I : Type} `{Countable I}.
Context {K : Type} `{IsRing K} `{!EqDecision K}.
Local Open Scope ring_scope.
Implicit Types (x y acc : gmap I K) (l : list (I * K)) (g k : I) (c d : K).

Lemma coefficient_empty k : coefficient (∅ : gmap I K) k = 0.
  Proof. unfold coefficient. by rewrite lookup_empty. Qed.

Lemma coefficient_insert x g c k :
    coefficient (<[g := c]> x) k = if decide (g = k) then c else coefficient x k.
  Proof.
    unfold coefficient. rewrite lookup_insert. by destruct (decide (g = k)).
  Qed.

Lemma coefficient_delete x g k :
    coefficient (delete g x) k = if decide (g = k) then 0 else coefficient x k.
  Proof.
    unfold coefficient. rewrite lookup_delete. by destruct (decide (g = k)).
  Qed.

Lemma coefficient_add_term acc t k :
    coefficient (add_term acc t) k = coefficient acc k + term_at k t.
  Proof.
    unfold add_term, term_at. destruct t as [g c]; simpl.
    destruct (decide (coefficient acc g + c = 0)) as [Hz|Hz].
    - rewrite coefficient_delete. destruct (decide (g = k)) as [->|].
      + done.
      + by rewrite r_add_0_r.
    - rewrite coefficient_insert. destruct (decide (g = k)) as [->|].
      + done.
      + by rewrite r_add_0_r.
  Qed.

Lemma coefficient_foldl_add_term l acc k :
    coefficient (foldl add_term acc l) k = coefficient acc k + bigsum l (term_at k).
  Proof.
    revert acc. induction l as [|t l IH]; intros acc; simpl.
    - by rewrite bigsum_nil, r_add_0_r.
    - by rewrite IH, coefficient_add_term, bigsum_cons, r_add_assoc.
  Qed.

Lemma coefficient_sum_of_terms l k :
    coefficient (sum_of_terms l) k = bigsum l (term_at k).
  Proof.
    unfold sum_of_terms.
    by rewrite coefficient_foldl_add_term, coefficient_empty, r_add_0_l.
  Qed.

Lemma normalized_empty : normalized (∅ : gmap I K).
  Proof. apply map_Forall_empty. Qed.

Lemma normalized_add_term acc t : normalized acc → normalized (add_term acc t).
  Proof.
    intros Hn. unfold add_term.
    destruct (decide (coefficient acc t.1 + t.2 = 0)).
    - by apply map_Forall_delete.
    - by apply map_Forall_insert_2.
  Qed.

Lemma normalized_foldl_add_term l acc :
    normalized acc → normalized (foldl add_term acc l).
  Proof.
    revert acc. induction l as [|t l IH]; intros acc Hn; simpl; [done|].
    by apply IH, normalized_add_term.
  Qed.

Lemma normalized_sum_of_terms l : normalized (sum_of_terms l).
  Proof. apply normalized_foldl_add_term, normalized_empty. Qed.

Lemma normalized_lookup x g c : normalized x → x !! g = Some c → c ≠ 0.
  Proof. intros Hn Hg. exact (Hn g c Hg). Qed.

  (** Two normalized elements with the same coefficients are equal. *)
Lemma element_ext x y :
    normalized x → normalized y →
    (∀ g, coefficient x g = coefficient y g) → x = y.
  Proof.
    intros Hx Hy Heq. apply map_eq. intros g.
    specialize (Heq g). unfold coefficient in Heq.
    destruct (x !! g) as [c|] eqn:Ex, (y !! g) as [d|] eqn:Ey;
      simpl in Heq; subst; try done.
    - by destruct (normalized_lookup x g 0 Hx Ex).
    - by destruct (normalized_lookup y g 0 Hy Ey).
  Qed.

Lemma bigsum_terms_insert x g c (F : I * K → K) :
    x !! g = None →
    bigsum (terms (<[g := c]> x)) F = F (g, c) + bigsum (terms x) F.
  Proof.
    intros Hg. unfold terms.
    by rewrite (bigsum_perm _ _ F (map_to_list_insert x g c Hg)), bigsum_cons.
  Qed.

Lemma bigsum_terms_delete x g c (F : I * K → K) :
    x !! g = Some c →
    bigsum (terms x) F = F (g, c) + bigsum (terms (delete g x)) F.
  Proof.
    intros Hg. unfold terms.
    by rewrite <- (bigsum_perm _ _ F (map_to_list_delete x g c Hg)), bigsum_cons.
  Qed.

Lemma bigsum_terms_coefficient x k :
    bigsum (terms x) (term_at k) = coefficient x k.
  Proof.
    induction x as [|g c x Hg IH] using map_ind.
    - unfold terms. by rewrite map_to_list_empty, coefficient_empty.
    - rewrite bigsum_terms_insert, coefficient_insert, IH by done.
      unfold term_at; simpl. destruct (decide (g = k)) as [->|].
      + unfold coefficient. rewrite Hg; simpl. apply r_add_0_r.
      + apply r_add_0_l.
  Qed.

Lemma sum_of_terms_terms x : normalized x → sum_of_terms (terms x) = x.
  Proof.
    intros Hn. apply element_ext; [apply normalized_sum_of_terms|done|].
    intros g. by rewrite coefficient_sum_of_terms, bigsum_terms_coefficient.
  Qed.

  (** Summing a function that is additive in the coefficient over the
      terms of [sum_of_terms l] is the same as summing it over [l]. *)
Section LinearSum.
Context (F : I * K → K).
Context (F_zero : ∀ g, F (g, 0) = 0).
Context (F_add : ∀ g c d, F (g, c + d) = F (g, c) + F (g, d)).

Lemma bigsum_terms_add_term acc t :
      bigsum (terms (add_term acc t)) F = bigsum (terms acc) F + F t.
    Proof.
      destruct t as [g c]. unfold add_term, coefficient; simpl.
      destruct (acc !! g) as [d|] eqn:Hg; simpl.
      - rewrite (bigsum_terms_delete acc g d F Hg).
        destruct (decide (d + c = 0)) as [Hz|Hz].
        + rewrite (r_add_comm (F (g, d))), <- r_add_assoc.
          by rewrite <- F_add, Hz, F_zero, r_add_0_r.
        + rewrite <- insert_delete_eq, bigsum_terms_insert
            by apply lookup_delete_eq.
          rewrite F_add, <- !r_add_assoc. f_equal. apply r_add_comm.
      - rewrite r_add_0_l. destruct (decide (c = 0)) as [->|Hz].
        + by rewrite delete_id, F_zero, r_add_0_r.
        + rewrite bigsum_terms_insert by done. apply r_add_comm.
    Qed.

Lemma bigsum_terms_foldl_add_term l acc :
      bigsum (terms (foldl add_term acc l)) F = bigsum (terms acc) F + bigsum l F.
    Proof.
      revert acc. induction l as [|t l IH]; intros acc; simpl.
      - by rewrite bigsum_nil, r_add_0_r.
      - by rewrite IH, bigsum_terms_add_term, bigsum_cons, r_add_assoc.
    Qed.

Lemma bigsum_terms_sum_of_terms l :
      bigsum (terms (sum_of_terms l)) F = bigsum l F.
    Proof.
      unfold sum_of_terms. rewrite bigsum_terms_foldl_add_term.
      unfold terms at 1. by rewrite map_to_list_empty, bigsum_nil, r_add_0_l.
    Qed.
End LinearSum.
End FreeModuleFacts.

(** ** Coefficients of the module operations *)

Section OperationFacts.
Context {I : Type} `{Countable I}.
Context {K : Type} `{IsRing K} `{!EqDecision K}.
Local Open Scope ring_scope.
Implicit Types (x y z : gmap I K) (g k : I) (c d : K).

Lemma term_at_mul_l k c (u : I * K) :
  term_at k (u.1, c * u.2) = c * term_at k u.
Proof.
  unfold term_at; simpl. destruct (decide (u.1 = k)); [done|].
  by rewrite r_mul_0_r.
Qed.

Lemma coefficient_term g (coeff : option K) k :
  coefficient (term g coeff) k = term_at k (g, default 1 coeff).
Proof.
  unfold term. by rewrite coefficient_sum_of_terms, bigsum_cons, bigsum_nil, r_add_0_r.
Qed.

Lemma coefficient_monomial g k :
  coefficient (monomial g : gmap I K) k = if decide (g = k) then 1 else 0.
Proof. unfold monomial. by rewrite coefficient_term. Qed.

Lemma coefficient_element_add x y k :
  coefficient (element_add x y) k = coefficient x k + coefficient y k.
Proof.
  unfold element_add.
  by rewrite coefficient_sum_of_terms, bigsum_app, !bigsum_terms_coefficient.
Qed.

Lemma coefficient_scalar_mul c x k :
  coefficient (scalar_mul c x) k = c * coefficient x k.
Proof.
  unfold scalar_mul.
  rewrite coefficient_sum_of_terms, bigsum_fmap.
  rewrite <- bigsum_terms_coefficient, bigsum_mul_l.
  apply bigsum_ext. intros u _. apply term_at_mul_l.
Qed.

End OperationFacts.

Section ExtensionFacts.
Context {I J : Type} `{Countable I} `{Countable J}.
Context {K : Type} `{IsRing K} `{!EqDecision K}.
Local Open Scope ring_scope.

Lemma bigsum_scaled_terms (c : K) (b : gmap J K) (k : J) :
  bigsum ((λ u, (u.1, c * u.2)) <$> terms b) (term_at k) = c * coefficient b k.
Proof.
  rewrite bigsum_fmap, <- bigsum_terms_coefficient, bigsum_mul_l.
  apply bigsum_ext. intros u _. apply term_at_mul_l.
Qed.

Lemma coefficient_linear_extension (B : I → gmap J K) (x : gmap I K) (k : J) :
  coefficient (linear_extension B x) k
  = bigsum (terms x) (λ t, t.2 * coefficient (B t.1) k).
Proof.
  unfold linear_extension.
  rewrite coefficient_sum_of_terms, bigsum_bind.
  apply bigsum_ext. intros t _. apply bigsum_scaled_terms.
Qed.

Lemma coefficient_bilinear_extension (B : I → I → gmap J K)
    (x y : gmap I K) (k : J) :
  coefficient (bilinear_extension B x y) k
  = bigsum (terms x) (λ t1, bigsum (terms y)
      (λ t2, (t1.2 * t2.2) * coefficient (B t1.1 t2.1) k)).
Proof.
  unfold bilinear_extension.
  rewrite coefficient_sum_of_terms, bigsum_bind.
  apply bigsum_ext. intros t1 _. rewrite bigsum_bind.
  apply bigsum_ext. intros t2 _. apply bigsum_scaled_terms.
Qed.

End ExtensionFacts.

(** ** The lift of a ring morphism to the coefficients *)

Section LiftFacts.
Context {I : Type} `{Countable I}.
Context {K K' : Type} `{IsRing K} `{IsRing K'} `{!EqDecision K} `{!EqDecision K'}.
Context (f : K → K') (Hf : RingMorphism f).
Local Open Scope ring_scope.
Import GroupAlgebraFunctor.

Lemma term_at_morphism (k : I) (t : I * K) :
  term_at k (t.1, f t.2) = f (term_at k t).
Proof.
  unfold term_at; simpl. destruct (decide (t.1 = k)); [done|].
  by rewrite (rm_zero f Hf).
Qed.

Lemma coefficient_on_coefficients (x : gmap I K) (k : I) :
  coefficient (on_coefficients f x) k = f (coefficient x k).
Proof.
  unfold on_coefficients.
  rewrite coefficient_sum_of_terms, bigsum_fmap.
  rewrite <- bigsum_terms_coefficient, (rm_bigsum f Hf).
  apply bigsum_ext. intros t _. apply term_at_morphism.
Qed.

Lemma bigsum_terms_on_coefficients (F : I * K' → K') (x : gmap I K) :
  (∀ g, F (g, 0) = 0) →
  (∀ g c d, F (g, c + d) = F (g, c) + F (g, d)) →
  bigsum (terms (on_coefficients f x)) F = bigsum (terms x) (λ t, F (t.1, f t.2)).
Proof.
  intros F_zero F_add. unfold on_coefficients.
  by rewrite bigsum_terms_sum_of_terms, bigsum_fmap.
Qed.

Lemma on_coefficients_element_add (x y : gmap I K) :
  on_coefficients f (element_add x y)
  = element_add (on_coefficients f x) (on_coefficients f y).
Proof.
  apply element_ext; try apply normalized_sum_of_terms.
  intros k.
  rewrite coefficient_on_coefficients, !coefficient_element_add.
  by rewrite !coefficient_on_coefficients, (rm_add f Hf).
Qed.

Lemma coefficient_monomial_morphism (g k : I) :
  f (coefficient (monomial g : gmap I K) k) = coefficient (monomial g : gmap I K') k.
Proof.
  rewrite !coefficient_monomial. destruct (decide (g = k)).
  - apply (rm_one f Hf).
  - apply (rm_zero f Hf).
Qed.

Lemma on_coefficients_one (e : I) :
  on_coefficients f (algebra_one e) = algebra_one e.
Proof.
  apply element_ext; try apply normalized_sum_of_terms.
  intros k. unfold algebra_one.
  by rewrite coefficient_on_coefficients, coefficient_monomial_morphism.
Qed.

Lemma on_coefficients_product (op : I → I → I) (x y : gmap I K) :
  on_coefficients f (product op x y)
  = product op (on_coefficients f x) (on_coefficients f y).
Proof.
  apply element_ext; try apply normalized_sum_of_terms.
  intros k. unfold product.
  rewrite coefficient_on_coefficients, !coefficient_bilinear_extension.
  rewrite bigsum_terms_on_coefficients.
  - rewrite (rm_bigsum f Hf). apply bigsum_ext. intros t1 _; simpl.
    rewrite bigsum_terms_on_coefficients.
    + rewrite (rm_bigsum f Hf). apply bigsum_ext. intros t2 _; simpl.
      unfold product_on_basis.
      by rewrite !(rm_mul f Hf), coefficient_monomial_morphism.
    + intros g; simpl. by rewrite r_mul_0_r, r_mul_0_l.
    + intros g c d; simpl. by rewrite r_mul_add_l, r_mul_add_r.
  - intros g; simpl. apply bigsum_zero. intros t2 _. by rewrite !r_mul_0_l.
  - intros g c d; simpl. rewrite <- bigsum_plus. apply bigsum_ext. intros t2 _.
    by rewrite !r_mul_add_r.
Qed.

End LiftFacts.

Section LiftFunctorial.
Context {I : Type} `{Countable I}.
Context {K K' K'' : Type} `{IsRing K} `{IsRing K'} `{IsRing K''}.
Context `{!EqDecision K} `{!EqDecision K'} `{!EqDecision K''}.
Import GroupAlgebraFunctor.

Lemma identity_ring_morphism : RingMorphism (λ a : K, a).
Proof. by split. Qed.

Lemma on_coefficients_identity (x : gmap I K) :
  normalized x → on_coefficients (λ a, a) x = x.
Proof.
  intros Hn. apply element_ext; [apply normalized_sum_of_terms|done|].
  intros k. by rewrite (coefficient_on_coefficients _ identity_ring_morphism).
Qed.

Lemma on_coefficients_compose (f : K → K') (g : K' → K'') (x : gmap I K) :
  RingMorphism f → RingMorphism g →
  on_coefficients (λ a, g (f a)) x = on_coefficients g (on_coefficients f x).
Proof.
  intros Hf Hg. apply element_ext; try apply normalized_sum_of_terms.
  intros k.
  assert (RingMorphism (λ a, g (f a))) as Hgf.
  { split.
    - intros a b. by rewrite (rm_add f Hf), (rm_add g Hg).
    - intros a b. by rewrite (rm_mul f Hf), (rm_mul g Hg).
    - by rewrite (rm_one f Hf), (rm_one g Hg). }
  rewrite (coefficient_on_coefficients _ Hgf).
  by rewrite (coefficient_on_coefficients _ Hg), (coefficient_on_coefficients _ Hf).
Qed.

End LiftFunctorial.

(** ** GroupAlgebraFunctor: lifting morphisms of rings *)

Section ApplyFunctorToMorphism.
Context `{Framework}.
Context {I : Type} `{Countable I}.
Context {K K' : Type} `{RingOps K'} `{!EqDecision K'}.
Import GroupAlgebraFunctor.

Lemma apply_functor_to_morphism_inv (F : GroupAlgebraFunctor.t)
    (f : Morphism K K') (hh : Morphism (gmap I K) (gmap I K')) :
  _apply_functor_to_morphism F f = Ok hh →
  ∃ A B, algebra (group F) (domain f) None = Ok A ∧
         algebra (group F) (codomain f) None = Ok B ∧
         hh = SetMorphism (Hom A B Rings) (on_coefficients (function f)).
Proof.
  unfold _apply_functor_to_morphism, __call__, _apply_functor, group.
  destruct (algebra (__group F) (domain f) None) as [A|e]; simpl; [|done].
  destruct (algebra (__group F) (codomain f) None) as [B|e]; simpl; [|done].
  intros [= <-]. by exists A, B.
Qed.

Lemma apply_functor_to_morphism_ok (F : GroupAlgebraFunctor.t)
    (f : Morphism K K') (A B : Parent) :
  algebra (group F) (domain f) None = Ok A →
  algebra (group F) (codomain f) None = Ok B →
  _apply_functor_to_morphism (I := I) F f
  = Ok (SetMorphism (Hom A B Rings) (on_coefficients (function f))).
Proof.
  unfold _apply_functor_to_morphism, __call__, _apply_functor, group.
  by intros -> ->.
Qed.

End ApplyFunctorToMorphism.

(** C2: for a group [G] and a morphism of rings [f] from [R] to [R'],
    [GroupAlgebraFunctor(G)] applied to [f] returns a morphism from the
    group algebra of [G] over [R] (the result [A] of [G.algebra(R)]) to
    the group algebra of [G] over [R'] (the result [B] of
    [G.algebra(R')]), and the image of an element has coefficient
    [f (c_g)] on each basis index [g], where [c_g] is the coefficient of
    the element on [g]. *)
Theorem apply_functor_to_morphism_lifts
    `{Framework} {I : Type} `{Countable I}
    {K K' : Type} `{IsRing K} `{IsRing K'} `{!EqDecision K} `{!EqDecision K'}
    (G : Parent) (f : Morphism K K') (A B : Parent) :
  RingMorphism (function f) →
  algebra G (domain f) None = Ok A →
  algebra G (codomain f) None = Ok B →
  ∃ hh : Morphism (gmap I K) (gmap I K'),
    GroupAlgebraFunctor._apply_functor_to_morphism (GroupAlgebraFunctor.__init__ G) f = Ok hh ∧
    domain hh = A ∧ codomain hh = B ∧
    ∀ (x : gmap I K) (g : I),
      coefficient (function hh x) g = function f (coefficient x g).
Proof.
  intros Hf HA HB.
  eexists. split; [by apply apply_functor_to_morphism_ok|].
  repeat split. intros x g; simpl.
  by apply coefficient_on_coefficients.
Qed.

(** C4: the lift of a morphism of rings [f] by [GroupAlgebraFunctor(G)]
    is a morphism of the category of rings that preserves the addition,
    the multiplication induced by the operation [op] of the group and
    the unit; the lift of the identity of [R] is the identity on the
    elements of the group algebra over [R]; and the lift of a
    composition is the composition of the lifts. *)
Theorem apply_functor_to_morphism_functorial
    `{Framework} {I : Type} `{Countable I}
    {K K' K'' : Type} `{IsRing K} `{IsRing K'} `{IsRing K''}
    `{!EqDecision K} `{!EqDecision K'} `{!EqDecision K''}
    (F : GroupAlgebraFunctor.t) :
  (∀ (f : Morphism K K') (hh : Morphism (gmap I K) (gmap I K')),
     RingMorphism (function f) →
     GroupAlgebraFunctor._apply_functor_to_morphism F f = Ok hh →
     hom_category (parent hh) = Rings ∧
     (∀ x y, function hh (element_add x y)
             = element_add (function hh x) (function hh y)) ∧
     (∀ op x y, function hh (product op x y)
                = product op (function hh x) (function hh y)) ∧
     (∀ e, function hh (algebra_one e) = algebra_one e)) ∧
  (∀ (R : Parent) (h : Morphism (gmap I K) (gmap I K)),
     GroupAlgebraFunctor._apply_functor_to_morphism F (identity_morphism R) = Ok h →
     domain h = codomain h ∧
     ∀ x, normalized x → function h x = x) ∧
  (∀ (f : Morphism K K') (g : Morphism K' K'')
     (hf : Morphism (gmap I K) (gmap I K'))
     (hg : Morphism (gmap I K') (gmap I K''))
     (hgf : Morphism (gmap I K) (gmap I K'')),
     RingMorphism (function f) → RingMorphism (function g) →
     GroupAlgebraFunctor._apply_functor_to_morphism F f = Ok hf →
     GroupAlgebraFunctor._apply_functor_to_morphism F g = Ok hg →
     GroupAlgebraFunctor._apply_functor_to_morphism F (compose_morphism g f) = Ok hgf →
     domain hgf = domain hf ∧ codomain hgf = codomain hg ∧
     ∀ x, function hgf x = function hg (function hf x)).
Proof.
  split; [|split].
  - intros f hh Hf Hhh.
    apply apply_functor_to_morphism_inv in Hhh as (A & B & _ & _ & ->); simpl.
    split; [done|]. split; [|split].
    + intros x y. by apply on_coefficients_element_add.
    + intros op x y. by apply on_coefficients_product.
    + intros e. by apply on_coefficients_one.
  - intros R h Hh.
    apply apply_functor_to_morphism_inv in Hh as (A & B & HA & HB & ->).
    unfold domain, codomain in *; simpl in *.
    split; [congruence|].
    intros x Hx. by apply on_coefficients_identity.
  - intros f g hf hg hgf Hf Hg Hhf Hhg Hhgf.
    apply apply_functor_to_morphism_inv in Hhf as (A & B & HA & HB & ->).
    apply apply_functor_to_morphism_inv in Hhg as (B' & C & HB' & HC & ->).
    apply apply_functor_to_morphism_inv in Hhgf as (A' & C' & HA' & HC' & ->).
    unfold compose_morphism, domain, codomain in *; simpl in *.
    split; [congruence|]. split; [congruence|].
    intros x. by apply on_coefficients_compose.
Qed.

Lemma apply_functor_to_morphism_lifts_witness :
  ∃ hh : Morphism (gmap bool Z) (gmap bool bool),
    GroupAlgebraFunctor._apply_functor_to_morphism
      (GroupAlgebraFunctor.__init__ Examples.SymmetricGroup2)
      Examples.reduction_mod_2 = Ok hh ∧
    domain hh = Sage.GroupAlgebra_class Examples.ZZ Examples.SymmetricGroup2
                  (Sage.Groups ∪ {[Sage.Finite; Sage.Commutative]}) ∧
    codomain hh = Sage.GroupAlgebra_class Examples.GF2 Examples.SymmetricGroup2
                    (Sage.Groups ∪ {[Sage.Finite; Sage.Commutative]}) ∧
    ∀ (x : gmap bool Z) (g : bool),
      coefficient (function hh x) g = Z.odd (coefficient x g).
Proof.
  apply (apply_functor_to_morphism_lifts (H := Sage.framework)
           Examples.SymmetricGroup2 Examples.reduction_mod_2);
    [exact Z_odd_ring_morphism | reflexivity | reflexivity].
Defined.

(** The lift of the reduction modulo two sends [2*() + 3*(1,2)] to
    [(1,2)]: the term whose coefficient becomes zero disappears. *)
Example on_coefficients_reduction_mod_2 :
  GroupAlgebraFunctor.on_coefficients Z.odd Examples.element_a
  = ({[true := true]} : gmap bool bool).
Proof. vm_compute. reflexivity. Qed.

Lemma apply_functor_to_morphism_functorial_witness :
  let F := GroupAlgebraFunctor.__init__ Examples.SymmetricGroup2 in
  let A := Sage.GroupAlgebra_class Examples.ZZ Examples.SymmetricGroup2
             (Sage.Groups ∪ {[Sage.Finite; Sage.Commutative]}) in
  let B := Sage.GroupAlgebra_class Examples.GF2 Examples.SymmetricGroup2
             (Sage.Groups ∪ {[Sage.Finite; Sage.Commutative]}) in
  let hh : Morphism (gmap bool Z) (gmap bool bool) :=
    SetMorphism (Hom A B Sage.Rings) (GroupAlgebraFunctor.on_coefficients Z.odd) in
  GroupAlgebraFunctor._apply_functor_to_morphism F Examples.reduction_mod_2 = Ok hh ∧
  function hh (element_add Examples.element_a Examples.element_b)
  = element_add (function hh Examples.element_a) (function hh Examples.element_b) ∧
  function hh (product xorb Examples.element_a Examples.element_b)
  = product xorb (function hh Examples.element_a) (function hh Examples.element_b) ∧
  function hh (algebra_one false) = algebra_one false.
Proof.
  intros F A B hh.
  assert (GroupAlgebraFunctor._apply_functor_to_morphism F Examples.reduction_mod_2
          = Ok hh) as Hhh by reflexivity.
  split; [exact Hhh|].
  destruct (apply_functor_to_morphism_functorial
              (H := Sage.framework) (I := bool) (K := Z) (K' := bool) (K'' := bool) F)
    as [Hhom _].
  destruct (Hhom Examples.reduction_mod_2 hh Z_odd_ring_morphism Hhh)
    as (_ & Hadd & Hmul & Hone).
  split; [apply Hadd|]. split; [apply Hmul|apply Hone].
Defined.

(** ** Bilinear extensions *)

Section BilinearFacts.
Context {I J : Type} `{Countable I} `{Countable J}.
Context {K : Type} `{IsRing K} `{!EqDecision K}.
Context (B : I → I → gmap J K).
Local Open Scope ring_scope.
Implicit Types (x y z : gmap I K) (g h : I) (k : J) (c d : K).

Lemma coefficient_bilinear_extension_kernel x y k :
  coefficient (bilinear_extension B x y) k
  = bigsum (terms x) (λ t1, bigsum (terms y) (kernel B k t1)).
Proof. apply coefficient_bilinear_extension. Qed.

Lemma kernel_zero_r k t1 g : kernel B k t1 (g, 0) = 0.
Proof. unfold kernel; simpl. by rewrite r_mul_0_r, r_mul_0_l. Qed.

Lemma kernel_plus_r k t1 g c d :
  kernel B k t1 (g, c + d) = kernel B k t1 (g, c) + kernel B k t1 (g, d).
Proof. unfold kernel; simpl. by rewrite r_mul_add_l, r_mul_add_r. Qed.

Lemma kernel_sum_zero_l k (l : list (I * K)) g :
  bigsum l (kernel B k (g, 0)) = 0.
Proof.
  apply bigsum_zero. intros t2 _. unfold kernel; simpl.
  by rewrite !r_mul_0_l.
Qed.

Lemma kernel_sum_plus_l k (l : list (I * K)) g c d :
  bigsum l (kernel B k (g, c + d))
  = bigsum l (kernel B k (g, c)) + bigsum l (kernel B k (g, d)).
Proof.
  rewrite <- bigsum_plus. apply bigsum_ext. intros t2 _.
  unfold kernel; simpl. by rewrite !r_mul_add_r.
Qed.

Lemma kernel_sum_scale_l k (l : list (I * K)) g c d :
  bigsum l (kernel B k (g, c * d)) = c * bigsum l (kernel B k (g, d)).
Proof.
  rewrite bigsum_mul_l. apply bigsum_ext. intros t2 _.
  unfold kernel; simpl. by rewrite !r_mul_assoc.
Qed.

Lemma bigsum_terms_sum_of_terms_l (l : list (I * K)) (m : list (I * K)) k :
  bigsum (terms (sum_of_terms l)) (λ t1, bigsum m (kernel B k t1))
  = bigsum l (λ t1, bigsum m (kernel B k t1)).
Proof.
  apply (bigsum_terms_sum_of_terms (λ t1, bigsum m (kernel B k t1))).
  - intros g. apply kernel_sum_zero_l.
  - intros g c d. apply kernel_sum_plus_l.
Qed.

Lemma bigsum_terms_sum_of_terms_r (l : list (I * K)) t1 k :
  bigsum (terms (sum_of_terms l)) (kernel B k t1) = bigsum l (kernel B k t1).
Proof.
  apply (bigsum_terms_sum_of_terms (kernel B k t1)).
  - intros g. apply kernel_zero_r.
  - intros g c d. apply kernel_plus_r.
Qed.

Lemma bilinear_extension_add_l x y z :
  bilinear_extension B (element_add x y) z
  = element_add (bilinear_extension B x z) (bilinear_extension B y z).
Proof.
  apply element_ext; try apply normalized_sum_of_terms.
  intros k. rewrite coefficient_element_add.
  rewrite !coefficient_bilinear_extension_kernel. unfold element_add.
  by rewrite bigsum_terms_sum_of_terms_l, bigsum_app.
Qed.

Lemma bilinear_extension_add_r x y z :
  bilinear_extension B x (element_add y z)
  = element_add (bilinear_extension B x y) (bilinear_extension B x z).
Proof.
  apply element_ext; try apply normalized_sum_of_terms.
  intros k. rewrite coefficient_element_add.
  rewrite !coefficient_bilinear_extension_kernel, <- bigsum_plus.
  apply bigsum_ext. intros t1 _. unfold element_add.
  by rewrite bigsum_terms_sum_of_terms_r, bigsum_app.
Qed.

Lemma bilinear_extension_scalar_l c x y :
  bilinear_extension B (scalar_mul c x) y
  = scalar_mul c (bilinear_extension B x y).
Proof.
  apply element_ext; try apply normalized_sum_of_terms.
  intros k. rewrite coefficient_scalar_mul.
  rewrite !coefficient_bilinear_extension_kernel. unfold scalar_mul.
  rewrite bigsum_terms_sum_of_terms_l, bigsum_fmap, bigsum_mul_l.
  apply bigsum_ext. intros [g d] _; simpl. apply kernel_sum_scale_l.
Qed.

Lemma coefficient_bilinear_extension_term g h (cg ch : option K) k :
  coefficient (bilinear_extension B (term g cg) (term h ch)) k
  = (default 1 cg * default 1 ch) * coefficient (B g h) k.
Proof.
  rewrite coefficient_bilinear_extension_kernel. unfold term.
  rewrite bigsum_terms_sum_of_terms_l, bigsum_cons, bigsum_nil, r_add_0_r.
  rewrite bigsum_terms_sum_of_terms_r, bigsum_cons, bigsum_nil, r_add_0_r.
  done.
Qed.

End BilinearFacts.

(** ** The algebra of a structure: basis and product *)

Section AlgebraFacts.
Context {I : Type} `{Countable I}.
Context {K : Type} `{IsRing K} `{!EqDecision K}.
Context (op : I → I → I).
Local Open Scope ring_scope.

Lemma product_monomial (g h : I) :
  product op (monomial g) (monomial h) = (monomial (op g h) : gmap I K).
Proof.
  apply element_ext; try apply normalized_sum_of_terms.
  intros k. unfold product, monomial at 1 2.
  rewrite coefficient_bilinear_extension_term; simpl.
  by rewrite !r_mul_1_l.
Qed.

Lemma product_scalar_r (c : K) (x y : gmap I K) :
  (∀ a b : K, a * b = b * a) →
  product op x (scalar_mul c y) = scalar_mul c (product op x y).
Proof.
  intros Hcomm.
  apply element_ext; try apply normalized_sum_of_terms.
  intros k. rewrite coefficient_scalar_mul. unfold product.
  rewrite !coefficient_bilinear_extension_kernel, bigsum_mul_l.
  apply bigsum_ext. intros t1 _. unfold scalar_mul.
  rewrite bigsum_terms_sum_of_terms_r, bigsum_fmap, bigsum_mul_l.
  apply bigsum_ext. intros t2 _. unfold kernel; simpl.
  by rewrite !r_mul_assoc, (Hcomm t1.2 c).
Qed.

End AlgebraFacts.

(** In the group algebra of the symmetric group on two letters,
    [(2*() + 3*(1,2)) * (() + (1,2)) = 5*() + 5*(1,2)]. *)
Example product_in_group_algebra :
  product xorb Examples.element_a Examples.element_b
  = sum_of_terms [(false, 5%Z); (true, 5%Z)].
Proof. vm_compute. reflexivity. Qed.

(** ** The coproduct *)

Section CoproductFacts.
Context {I : Type} `{Countable I}.
Context {K : Type} `{IsRing K} `{!EqDecision K}.
Local Open Scope ring_scope.
Import AlgebrasCategory.ParentMethods.

Lemma coproduct_on_basis_monomial (g : I) :
  coproduct_on_basis g = (monomial (g, g) : gmap (I * I) K).
Proof.
  apply element_ext; try apply normalized_sum_of_terms.
  intros k. unfold coproduct_on_basis, tensor.
  rewrite coefficient_bilinear_extension_term; simpl.
  by rewrite !r_mul_1_l.
Qed.

Lemma coefficient_coproduct_on_basis (g : I) (k : I * I) :
  coefficient (coproduct_on_basis g : gmap (I * I) K) k
  = if decide ((g, g) = k) then 1 else 0.
Proof. by rewrite coproduct_on_basis_monomial, coefficient_monomial. Qed.

Lemma coproduct_sum_of_terms (x : gmap I K) :
  coproduct x = sum_of_terms ((λ t, ((t.1, t.1), t.2)) <$> terms x).
Proof.
  apply element_ext; try apply normalized_sum_of_terms.
  intros k. unfold coproduct.
  rewrite coefficient_linear_extension, coefficient_sum_of_terms, bigsum_fmap.
  apply bigsum_ext. intros t _; simpl.
  rewrite coefficient_coproduct_on_basis. unfold term_at; simpl.
  destruct (decide ((t.1, t.1) = k)).
  - apply r_mul_1_r.
  - apply r_mul_0_r.
Qed.

Lemma coefficient_coproduct (x : gmap I K) (g h : I) :
  coefficient (coproduct x) (g, h)
  = if decide (g = h) then coefficient x g else 0.
Proof.
  rewrite coproduct_sum_of_terms, coefficient_sum_of_terms, bigsum_fmap.
  destruct (decide (g = h)) as [<-|Hne].
  - rewrite <- bigsum_terms_coefficient.
    apply bigsum_ext. intros t _. unfold term_at; simpl.
    destruct (decide (t.1 = g)) as [->|Hne].
    + by rewrite decide_True.
    + rewrite decide_False; [done|]. by intros [= ?].
  - apply bigsum_zero. intros t _. unfold term_at; simpl.
    rewrite decide_False; [done|]. intros [= ? ?]. congruence.
Qed.

End CoproductFacts.

(** C8: [coproduct_on_basis(g)] is the tensor product of the basis
    element indexed by [g] with itself, that is, the basis element
    [B[g] # B[g]] of the tensor square; hence the coproduct of an element
    with coefficients [c_g] is the sum of the [c_g * (B[g] # B[g])]: its
    coefficient on [(g, h)] is [c_g] when [g = h] and zero otherwise. *)
Theorem coproduct_on_basis_group_like
    {I : Type} `{Countable I} {K : Type} `{IsRing K} `{!EqDecision K} :
  (∀ g : I,
     AlgebrasCategory.ParentMethods.coproduct_on_basis g
     = tensor (monomial g : gmap I K) (monomial g) ∧
     AlgebrasCategory.ParentMethods.coproduct_on_basis g
     = (monomial (g, g) : gmap (I * I) K)) ∧
  (∀ x : gmap I K,
     AlgebrasCategory.ParentMethods.coproduct x
     = sum_of_terms ((λ t, ((t.1, t.1), t.2)) <$> terms x)) ∧
  (∀ (x : gmap I K) (g h : I),
     coefficient (AlgebrasCategory.ParentMethods.coproduct x) (g, h)
     = if decide (g = h) then coefficient x g else 0%R).
Proof.
  split; [|split].
  - intros g. split; [reflexivity|apply coproduct_on_basis_monomial].
  - apply coproduct_sum_of_terms.
  - apply coefficient_coproduct.
Qed.

Lemma coproduct_on_basis_group_like_witness :
  AlgebrasCategory.ParentMethods.coproduct_on_basis Examples.transposition
  = ({[(true, true) := 1%Z]} : gmap (bool * bool) Z) ∧
  coefficient (AlgebrasCategory.ParentMethods.coproduct Examples.element_a) (true, true)
  = 3%Z ∧
  coefficient (AlgebrasCategory.ParentMethods.coproduct Examples.element_a) (true, false)
  = 0%Z.
Proof.
  destruct (coproduct_on_basis_group_like (I := bool) (K := Z))
    as (Hbasis & _ & Hcoeff).
  split; [exact (proj2 (Hbasis true))|].
  split; [exact (Hcoeff Examples.element_a true true)|].
  exact (Hcoeff Examples.element_a true false).
Defined.

(** ** AlgebraFunctor *)

(** C6: [AlgebraFunctor(base_ring)] fails with an assertion error for
    every argument that is not in the category of rings; for a ring the
    construction succeeds and [base_ring()] returns the ring given at
    construction. *)
Theorem AlgebraFunctor_init_requires_ring `{Framework} (base_ring : Parent) :
  (contains Rings base_ring = false →
   AlgebraFunctor.__init__ base_ring = Raise AssertionError) ∧
  (contains Rings base_ring = true →
   ∃ F, AlgebraFunctor.__init__ base_ring = Ok F ∧
        AlgebraFunctor.base_ring F = base_ring).
Proof.
  unfold AlgebraFunctor.__init__. split; intros ->; [done|].
  by eexists.
Qed.

Example AlgebraFunctor_QQ :
  ∃ F, AlgebraFunctor.__init__ Examples.QQ = Ok F ∧
       AlgebraFunctor.base_ring F = Examples.QQ.
Proof. by eexists. Qed.

Example AlgebraFunctor_not_a_ring :
  AlgebraFunctor.__init__ Examples.DihedralGroup3 = Raise AssertionError.
Proof. reflexivity. Qed.

(** C7: for a group [G] and a ring [R], [AlgebraFunctor(R)] applied to
    [G] with no category and [GroupAlgebraFunctor(G)] applied to [R]
    return the same result, which is that of [G.algebra(R)]. *)
Theorem univariate_functors_agree `{Framework}
    (G R : Parent) (F : AlgebraFunctor.t) :
  AlgebraFunctor.__init__ R = Ok F →
  AlgebraFunctor.__call__ F G None
  = GroupAlgebraFunctor.__call__ (GroupAlgebraFunctor.__init__ G) R ∧
  GroupAlgebraFunctor._apply_functor (GroupAlgebraFunctor.__init__ G) R
  = algebra G R None ∧
  AlgebraFunctor.__call__ F G None = algebra G R None.
Proof.
  unfold AlgebraFunctor.__init__.
  destruct (contains Rings R); [|done].
  by intros [= <-].
Qed.

Lemma univariate_functors_agree_witness :
  AlgebraFunctor.__call__ Examples.F_QQ
    Examples.DihedralGroup3 None
  = GroupAlgebraFunctor.__call__
      (GroupAlgebraFunctor.__init__ Examples.DihedralGroup3) Examples.QQ ∧
  GroupAlgebraFunctor._apply_functor
    (GroupAlgebraFunctor.__init__ Examples.DihedralGroup3) Examples.QQ
  = Sage.algebra Examples.DihedralGroup3 Examples.QQ None ∧
  AlgebraFunctor.__call__ Examples.F_QQ
    Examples.DihedralGroup3 None
  = Sage.algebra Examples.DihedralGroup3 Examples.QQ None.
Proof.
  apply (univariate_functors_agree (H := Sage.framework)
           Examples.DihedralGroup3 Examples.QQ).
  reflexivity.
Defined.

(** ** The algebra of a parent in the category lattice *)

Section LatticeFacts.
Import Sage.
Implicit Types (C E : Category) (X R A : Sage.Parent).

Lemma is_subcategory_true C C' : is_subcategory C C' = true ↔ C' ⊆ C.
Proof. unfold is_subcategory. apply bool_decide_eq_true. Qed.

Lemma is_subcategory_trans C1 C2 C3 :
  is_subcategory C1 C2 = true → is_subcategory C2 C3 = true →
  is_subcategory C1 C3 = true.
Proof. rewrite !is_subcategory_true. set_solver. Qed.

Lemma multiplicative_true C :
  multiplicative C = true ↔ Magma ∈ C ∧ AdditiveMagma ∉ C.
Proof.
  unfold multiplicative.
  rewrite andb_true_iff, negb_true_iff, bool_decide_eq_true, bool_decide_eq_false.
  done.
Qed.

Lemma additive_true C :
  additive C = true ↔ AdditiveMagma ∈ C ∧ Magma ∉ C.
Proof.
  unfold additive.
  rewrite andb_true_iff, negb_true_iff, bool_decide_eq_true, bool_decide_eq_false.
  done.
Qed.

Lemma extended_structure_multiplicative C :
  multiplicative C = true → extended_structure C = [Multiplication].
Proof.
  intros [Hm Ha]%multiplicative_true. unfold extended_structure.
  by rewrite (bool_decide_eq_true_2 _ Hm), (bool_decide_eq_false_2 _ Ha).
Qed.

Lemma extended_structure_additive C :
  additive C = true → extended_structure C = [Addition].
Proof.
  intros [Ha Hm]%additive_true. unfold extended_structure.
  by rewrite (bool_decide_eq_true_2 _ Ha), (bool_decide_eq_false_2 _ Hm).
Qed.

(** A category of the supported lattice is never ambiguous. *)
Lemma supported_unambiguous C :
  supported C = true →
  is_subcategory C Semigroups && is_subcategory C AdditiveSemigroups = false.
Proof.
  unfold supported. intros Hs. apply andb_false_iff.
  apply orb_true_iff in Hs as [[Hm Ha]%multiplicative_true|[Ha Hm]%additive_true].
  - right. apply bool_decide_eq_false. unfold AdditiveSemigroups. set_solver.
  - left. apply bool_decide_eq_false. unfold Semigroups. set_solver.
Qed.

Lemma algebra_supported X R (category : option Category) :
  supported (default (parent_category X) category) = true →
  algebra X R category
  = Ok (GroupAlgebra_class R X (default (parent_category X) category)).
Proof.
  intros Hs. unfold algebra; simpl. by rewrite (supported_unambiguous _ Hs).
Qed.

Lemma induced_in_algebra_structure C (o : Operation) (a b : CategoryAxiom) :
  extended_structure C = [o] → a ∈ C → induced_axiom o a = Some b →
  b ∈ algebra_structure C.
Proof.
  intros Ho Ha Hb. unfold algebra_structure. rewrite Ho.
  apply elem_of_union_r, elem_of_union_r, elem_of_set_omap. eauto.
Qed.

Lemma triple_subseteq (a b c : CategoryAxiom) C :
  a ∈ C → b ∈ C → c ∈ C → {[a; b; c]} ⊆ C.
Proof.
  intros Ha Hb Hc d. rewrite !elem_of_union, !elem_of_singleton.
  by intros [[->| ->]| ->].
Qed.

Lemma distributive_in_algebra_structure C (o : Operation) :
  extended_structure C = [o] → Distributive ∈ algebra_structure C.
Proof. intros Ho. unfold algebra_structure. rewrite Ho. set_solver. Qed.

End LatticeFacts.

(** ** AlgebrasCategory: the class call *)

Section ClassCallFacts.
Context `{Framework}.
Context {CategoryClass Class : Type} `{EqDecision CategoryClass}.
Context (abstract_class : Class).
Context (functor_category_of : Class → string).
Context (_base_category_class : Class → CategoryClass).
Context (getattr : CategoryClass → string → option Class).
Import AlgebrasCategory.

(** The image of [Cat()] under a construction named ["Algebras"] is the
    instance of the class nested in [Cat], whatever class [category_of]
    is called on. *)
Lemma category_of_nested (fuel : nat) (cls nested : Class) (Cat : CategoryClass)
    (R : Argument) :
  functor_category_of cls = _functor_category →
  getattr Cat _functor_category = Some nested →
  _base_category_class nested = Cat →
  category_of functor_category_of _base_category_class getattr (S fuel) cls
    (Instantiate Cat) R
  = Some (UniqueRepresentation nested (ArgCategory (Instantiate Cat)) R).
Proof.
  intros Hname Hnested Hbase.
  unfold category_of, category_of_with; simpl.
  rewrite Hname, Hnested, Hbase.
  by rewrite bool_decide_eq_true_2.
Qed.

End ClassCallFacts.

(** ** The categories of algebras built by the class call *)

Section ConstructionFacts.
Import Sage.
Implicit Types (C E : Category) (X R A : Sage.Parent).

Lemma AlgebraFunctor_init_inv R (F : @AlgebraFunctor.t framework) :
  AlgebraFunctor.__init__ R = Ok F →
  Sage.contains Sage.Rings R = true ∧ AlgebraFunctor._base_ring F = R.
Proof.
  unfold AlgebraFunctor.__init__; simpl.
  destruct (Sage.contains Sage.Rings R); [|done].
  by intros [= <-].
Qed.

(** Over a ring, [C.Algebras(R)] is the instance for [C()] and [R] of the
    class of algebras nested in [C]. *)
Lemma Algebras_ring C R :
  Sage.contains Sage.Rings R = true →
  Construction.Algebras C R
  = Some (Ok (AlgebrasCategory.UniqueRepresentation (Construction.Nested C)
                (AlgebrasCategory.ArgCategory (AlgebrasCategory.Instantiate C))
                (AlgebrasCategory.ArgParent R))).
Proof.
  intros HR. unfold Construction.Algebras, AlgebrasCategory.Algebras; simpl.
  rewrite HR.
  by rewrite (category_of_nested Construction.functor_category_of
                Construction._base_category_class Construction.getattr
                1 Construction.Abstract (Construction.Nested C) C).
Qed.

Lemma member_algebra X R E C :
  Sage.contains Sage.Rings R = true →
  Construction.member (GroupAlgebra_class R X E) C R = Sage.is_subcategory E C.
Proof.
  intros HR. unfold Construction.member, Construction.category.
  rewrite !(Algebras_ring _ R HR); simpl.
  by rewrite bool_decide_eq_true_2.
Qed.

Lemma algebra_unambiguous X R (category : option Category) :
  Sage.is_subcategory (default (parent_category X) category) Semigroups
  && Sage.is_subcategory (default (parent_category X) category) AdditiveSemigroups
  = false →
  algebra X R category
  = Ok (GroupAlgebra_class R X (default (parent_category X) category)).
Proof. intros Hu. unfold algebra; simpl. by rewrite Hu. Qed.

Lemma extended_structure_single E (o : Operation) :
  extended_structure E = [o] →
  (o = Multiplication ∧ multiplicative E = true) ∨
  (o = Addition ∧ additive E = true).
Proof.
  unfold extended_structure, multiplicative, additive.
  destruct (bool_decide (Magma ∈ E)), (bool_decide (AdditiveMagma ∈ E));
    simpl; intros [= <-]; auto.
Qed.

Lemma extended_structure_supported E (o : Operation) :
  extended_structure E = [o] → supported E = true.
Proof.
  intros [[_ Hm]|[_ Ha]]%extended_structure_single; unfold supported.
  - by rewrite Hm.
  - rewrite Ha. apply orb_true_r.
Qed.

End ConstructionFacts.






(** The algebra of a finite group is in the categories of algebras of
    finite groups and of monoids, and it is a semisimple Hopf algebra
    over the rational field. *)
Example dihedral_group_algebra_categories :
  ∃ A : Sage.Parent,
    AlgebraFunctor.__call__ Examples.F_QQ Examples.DihedralGroup3 None = Ok A ∧
    Construction.member A (Sage.Groups ∪ {[Sage.Finite]}) Examples.QQ = true ∧
    Construction.member A Sage.Monoids Examples.QQ = true ∧
    Construction.member A Sage.AdditiveMonoids Examples.QQ = false ∧
    Construction.member A Sage.Monoids Examples.GF7 = false ∧
    Construction.is_hopf_algebra A = true ∧
    Construction.is_semisimple A = true.
Proof. eexists. repeat split; reflexivity. Qed.

(** The examples of the documentation of the module. *)

Example monoid_algebra_category :
  ∃ A, Sage.algebra Examples.FreeMonoid Examples.QQ None = Ok A ∧
       Construction.member A Sage.Monoids Examples.QQ = true ∧
       Sage.contains Sage.Rings A = true.
Proof. eexists. repeat split; reflexivity. Qed.

Example additive_monoid_algebra_is_an_algebra :
  ∃ U, Sage.algebra Examples.FreeCommutativeAdditiveMonoid Examples.QQ None = Ok U ∧
       Sage.contains Sage.Rings U = true ∧
       Sage.extended_structure
         (Sage.parent_category Examples.FreeCommutativeAdditiveMonoid)
       = [Sage.Addition].
Proof. eexists. repeat split; reflexivity. Qed.

Example set_algebra_is_not_an_algebra :
  ∃ A, Sage.algebra Examples.PrimeNumbers Examples.QQ None = Ok A ∧
       Construction.member A Sage.Sets Examples.QQ = true ∧
       Sage.contains Sage.Rings A = false.
Proof. eexists. repeat split; reflexivity. Qed.

Example dihedral_group_algebra_is_hopf :
  ∃ A, Sage.algebra Examples.DihedralGroup3 Examples.QQ None = Ok A ∧
       Construction.is_hopf_algebra A = true ∧ Construction.is_finite_dimensional A = true.
Proof. eexists. repeat split; reflexivity. Qed.

Example monoid_algebra_of_a_group :
  ∃ A, AlgebraFunctor.__call__ Examples.F_QQ
         Examples.DihedralGroup3 (Some Sage.Monoids) = Ok A ∧
       Construction.member A Sage.Monoids Examples.QQ = true ∧
       Construction.is_finite_dimensional A = true ∧
       Construction.is_hopf_algebra A = false.
Proof. eexists. repeat split; reflexivity. Qed.

Example maschke_examples :
  (∃ A, Sage.algebra Examples.SymmetricGroup5 Examples.QQ None = Ok A ∧
        Construction.is_semisimple A = true) ∧
  (∃ A, Sage.algebra Examples.CyclicPermutationGroup10 Examples.GF7 None = Ok A ∧
        Construction.is_semisimple A = true) ∧
  (∃ A, Sage.algebra Examples.CyclicPermutationGroup10 Examples.GF5 None = Ok A ∧
        Construction.is_semisimple A = false).
Proof. repeat split; eexists; repeat split; reflexivity. Qed.

Example commutative_examples :
  (∃ A, Sage.algebra Examples.SymmetricGroup2 Examples.QQ None = Ok A ∧
        Sage.is_commutative A = true) ∧
  (∃ A, Sage.algebra Examples.DihedralGroup3 Examples.QQ None = Ok A ∧
        Sage.is_commutative A = false).
Proof. repeat split; eexists; repeat split; reflexivity. Qed.



Example ambiguous_message_Z3 :
  Sage.ambiguous_message Examples.Z3
  = " `S = Ring of integers modulo 3` is both an additive and a multiplicative semigroup. Constructing its algebra is ambiguous. Please use, e.g., S.algebra(QQ, category=Semigroups())".
Proof. reflexivity. Qed.

Example Z3_monoid_algebra_is_finite_dimensional :
  Construction.is_finite_dimensional
    (Sage.GroupAlgebra_class Examples.QQ Examples.Z3 Sage.Monoids) = true ∧
  Construction.is_finite_dimensional
    (Sage.GroupAlgebra_class Examples.QQ Examples.Z3 Sage.CommutativeAdditiveGroups)
  = true ∧
  Sage.is_commutative
    (Sage.GroupAlgebra_class Examples.QQ Examples.Z3 Sage.CommutativeAdditiveGroups)
  = true.
Proof. repeat split; reflexivity. Qed.

(** ** AlgebrasCategory: the shorthand *)

(** C9: let [cls] be a concrete subclass of [AlgebrasCategory]: it
    inherits the name of the construction and is the class of that name
    nested in its base category class [Cat].  Called on a ring [R],
    which is not an instance of [Cat], it returns the same category
    object as [Cat().Algebras(R)]: the instance of [cls] for [Cat()] and
    [R]. *)
Theorem classcall_shorthand
    `{Framework} {CategoryClass Class : Type} `{EqDecision CategoryClass}
    (abstract_class : Class)
    (functor_category_of : Class → string)
    (_base_category_class : Class → CategoryClass)
    (getattr : CategoryClass → string → option Class)
    (cls : Class) (R : Parent) (fuel : nat) :
  functor_category_of abstract_class = AlgebrasCategory._functor_category →
  functor_category_of cls = AlgebrasCategory._functor_category →
  getattr (_base_category_class cls) AlgebrasCategory._functor_category = Some cls →
  contains Rings R = true →
  2 ≤ fuel →
  AlgebrasCategory.__classcall__ functor_category_of _base_category_class getattr
    fuel cls (AlgebrasCategory.ArgParent R) AlgebrasCategory.ArgNone
  = Some (AlgebrasCategory.UniqueRepresentation cls
            (AlgebrasCategory.ArgCategory
               (AlgebrasCategory.Instantiate (_base_category_class cls)))
            (AlgebrasCategory.ArgParent R)) ∧
  AlgebrasCategory.Algebras abstract_class functor_category_of _base_category_class
    getattr fuel (AlgebrasCategory.Instantiate (_base_category_class cls)) R
  = (Ok <$> AlgebrasCategory.__classcall__ functor_category_of _base_category_class
              getattr fuel cls (AlgebrasCategory.ArgParent R) AlgebrasCategory.ArgNone).
Proof.
  intros Habs Hcls Hnested HR Hfuel.
  destruct fuel as [|[|fuel]]; [lia|lia|].
  assert (AlgebrasCategory.__classcall__ functor_category_of _base_category_class
            getattr (S (S fuel)) cls (AlgebrasCategory.ArgParent R)
            AlgebrasCategory.ArgNone
          = Some (AlgebrasCategory.UniqueRepresentation cls
                    (AlgebrasCategory.ArgCategory
                       (AlgebrasCategory.Instantiate (_base_category_class cls)))
                    (AlgebrasCategory.ArgParent R))) as Hcall.
  { exact (category_of_nested functor_category_of _base_category_class getattr
             fuel cls cls (_base_category_class cls) (AlgebrasCategory.ArgParent R)
             Hcls Hnested eq_refl). }
  split; [exact Hcall|].
  unfold AlgebrasCategory.Algebras. rewrite HR, Hcall.
  by rewrite (category_of_nested functor_category_of _base_category_class getattr
                (S fuel) abstract_class cls (_base_category_class cls)).
Qed.

Lemma classcall_shorthand_witness :
  AlgebrasCategory.__classcall__ Examples.functor_category_of
    Examples.base_category_class Examples.nested_class
    2 (Examples.NestedAlgebras Examples.GroupsClass)
    (AlgebrasCategory.ArgParent Examples.QQ) AlgebrasCategory.ArgNone
  = Some (AlgebrasCategory.UniqueRepresentation
            (Examples.NestedAlgebras Examples.GroupsClass)
            (AlgebrasCategory.ArgCategory
               (AlgebrasCategory.Instantiate Examples.GroupsClass))
            (AlgebrasCategory.ArgParent Examples.QQ)) ∧
  AlgebrasCategory.Algebras Examples.AlgebrasCategoryClass
    Examples.functor_category_of Examples.base_category_class Examples.nested_class
    2 (AlgebrasCategory.Instantiate Examples.GroupsClass) Examples.QQ
  = (Ok <$> AlgebrasCategory.__classcall__ Examples.functor_category_of
              Examples.base_category_class Examples.nested_class
              2 (Examples.NestedAlgebras Examples.GroupsClass)
              (AlgebrasCategory.ArgParent Examples.QQ) AlgebrasCategory.ArgNone).
Proof.
  apply (classcall_shorthand (H := Sage.framework)
           Examples.AlgebrasCategoryClass Examples.functor_category_of
           Examples.base_category_class Examples.nested_class
           (Examples.NestedAlgebras Examples.GroupsClass) Examples.QQ 2);
    [reflexivity|reflexivity|reflexivity|reflexivity|lia].
Defined.

(** With an instance of the base category class as first argument, the
    class call builds the instance itself. *)
Example classcall_on_category_instance :
  AlgebrasCategory.__classcall__ Examples.functor_category_of
    Examples.base_category_class Examples.nested_class
    1 (Examples.NestedAlgebras Examples.GroupsClass)
    (AlgebrasCategory.ArgCategory (AlgebrasCategory.Instantiate Examples.GroupsClass))
    (AlgebrasCategory.ArgParent Examples.QQ)
  = Some (AlgebrasCategory.UniqueRepresentation
            (Examples.NestedAlgebras Examples.GroupsClass)
            (AlgebrasCategory.ArgCategory
               (AlgebrasCategory.Instantiate Examples.GroupsClass))
            (AlgebrasCategory.ArgParent Examples.QQ)).
Proof. reflexivity. Qed.

(** * Further properties of the code *)

(** ** AlgebrasCategory: the name of the objects *)

Lemma substring_prefix (w s : string) :
  String.substring 0 (String.length w) (w +:+ s) = w.
Proof.
  induction w as [|a w IH]; simpl.
  - by destruct s.
  - by rewrite IH.
Qed.

Lemma length_app_char (w : string) (c : Ascii.ascii) :
  String.length (w +:+ String c EmptyString) = S (String.length w).
Proof. induction w as [|a w IH]; simpl; [done|]. by rewrite IH. Qed.

Lemma but_last_app_char (w : string) (c : Ascii.ascii) :
  AlgebrasCategory.but_last (w +:+ String c EmptyString) = w.
Proof.
  unfold AlgebrasCategory.but_last.
  rewrite length_app_char; simpl. rewrite Nat.sub_0_r.
  apply substring_prefix.
Qed.

(** X1: the name of the objects of a category of algebras is the name of
    the objects of the base category without its last character (the
    plural mark), followed by [" algebras over "] and the base ring;
    when the base category gives an empty name, nothing is dropped. *)
Theorem repr_object_names_drops_last_character (w base_ring : string) (c : Ascii.ascii) :
  AlgebrasCategory._repr_object_names (w +:+ String c EmptyString) base_ring
  = w +:+ " algebras over " +:+ base_ring ∧
  AlgebrasCategory._repr_object_names EmptyString base_ring
  = " algebras over " +:+ base_ring.
Proof.
  unfold AlgebrasCategory._repr_object_names.
  by rewrite but_last_app_char.
Qed.

(** [Semigroups().Algebras(QQ)] is the category of semigroup algebras
    over Rational Field. *)
Example repr_semigroup_algebras :
  AlgebrasCategory._repr_object_names "semigroups" "Rational Field"
  = "semigroup algebras over Rational Field".
Proof. reflexivity. Qed.

(** ** GroupAlgebraFunctor: the lifted function *)

(** Over the ring of integers modulo 3, which is both an additive and a
    multiplicative semigroup, no lift exists. *)
Example apply_functor_to_morphism_ambiguous_group :
  GroupAlgebraFunctor._apply_functor_to_morphism (I := bool)
    (GroupAlgebraFunctor.__init__ Examples.Z3) Examples.reduction_mod_2
  = Raise (TypeError (Sage.ambiguous_message Examples.Z3)).
Proof. reflexivity. Qed.

Section LiftedFunction.
Context {I : Type} `{Countable I}.
Context {K K' : Type} `{IsRing K'} `{!EqDecision K'}.
Context (f : K → K').
Local Open Scope ring_scope.
Import GroupAlgebraFunctor.

Lemma on_coefficients_lookup_None (x : gmap I K) (g : I) :
  x !! g = None → on_coefficients f x !! g = None.
Proof.
  intros Hg.
  assert (coefficient (on_coefficients f x) g = 0) as Hz.
  { unfold on_coefficients.
    rewrite coefficient_sum_of_terms, bigsum_fmap.
    apply bigsum_zero. intros [g' c] Hin; simpl.
    unfold term_at; simpl. destruct (decide (g' = g)) as [->|]; [|done].
    apply elem_of_map_to_list in Hin. congruence. }
  destruct (on_coefficients f x !! g) as [c|] eqn:Hc; [|done].
  unfold coefficient in Hz. rewrite Hc in Hz; simpl in Hz. subst c.
  by destruct (normalized_lookup _ g 0 (normalized_sum_of_terms _) Hc).
Qed.

End LiftedFunction.

(** X3: whatever the function on the coefficients, the image of an
    element under the lifted function stores no zero coefficient and has
    no term on a basis index that the element does not have. *)
Theorem lifted_function_support
    `{Framework} {I : Type} `{Countable I}
    {K K' : Type} `{IsRing K'} `{!EqDecision K'}
    (F : GroupAlgebraFunctor.t) (f : Morphism K K')
    (hh : Morphism (gmap I K) (gmap I K')) (x : gmap I K) :
  GroupAlgebraFunctor._apply_functor_to_morphism F f = Ok hh →
  map_Forall (λ _ c, c ≠ 0%R) (function hh x) ∧
  dom (function hh x) ⊆ dom x.
Proof.
  intros Hhh.
  apply apply_functor_to_morphism_inv in Hhh as (A & B & _ & _ & ->); simpl.
  split; [apply normalized_sum_of_terms|].
  intros g Hg. apply elem_of_dom in Hg. apply elem_of_dom.
  destruct (x !! g) eqn:Hx; [done|].
  rewrite (on_coefficients_lookup_None _ x g Hx) in Hg. by destruct Hg.
Qed.

Lemma lifted_function_support_witness :
  map_Forall (λ _ c : bool, c ≠ 0%R)
    (function Examples.lift_mod_2 Examples.element_a) ∧
  dom (function Examples.lift_mod_2 Examples.element_a) ⊆ dom Examples.element_a.
Proof.
  apply (lifted_function_support Examples.F_SymmetricGroup2
           Examples.reduction_mod_2 Examples.lift_mod_2 Examples.element_a).
  reflexivity.
Defined.

Section LiftedLinear.
Context {I : Type} `{Countable I}.
Context {K K' : Type} `{IsRing K} `{IsRing K'} `{!EqDecision K} `{!EqDecision K'}.
Context (f : K → K') (Hf : RingMorphism f).
Local Open Scope ring_scope.
Import GroupAlgebraFunctor.

Lemma on_coefficients_empty : on_coefficients f (∅ : gmap I K) = ∅.
Proof. unfold on_coefficients, terms. by rewrite map_to_list_empty. Qed.

Lemma on_coefficients_scalar_mul (c : K) (x : gmap I K) :
  on_coefficients f (scalar_mul c x) = scalar_mul (f c) (on_coefficients f x).
Proof.
  apply element_ext; try apply normalized_sum_of_terms.
  intros g.
  rewrite (coefficient_on_coefficients f Hf), !coefficient_scalar_mul.
  by rewrite (coefficient_on_coefficients f Hf), (rm_mul f Hf).
Qed.

Lemma coefficient_fmap (x : gmap I K) (g : I) :
  coefficient (f <$> x) g = f (coefficient x g).
Proof.
  unfold coefficient. rewrite lookup_fmap.
  destruct (x !! g); simpl; [done|]. by rewrite (rm_zero f Hf).
Qed.

Lemma on_coefficients_injective_fmap (x : gmap I K) :
  (∀ a b, f a = f b → a = b) → normalized x →
  on_coefficients f x = f <$> x.
Proof.
  intros Hinj Hx. apply element_ext; [apply normalized_sum_of_terms| |].
  - intros g c' Hg. rewrite lookup_fmap in Hg.
    destruct (x !! g) as [c|] eqn:Hc; simpl in Hg; [|done].
    injection Hg as <-. intros Hz.
    apply (normalized_lookup x g c Hx Hc).
    apply Hinj. by rewrite Hz, (rm_zero f Hf).
  - intros g. by rewrite (coefficient_on_coefficients f Hf), coefficient_fmap.
Qed.

Lemma on_coefficients_injective (x y : gmap I K) :
  (∀ a b, f a = f b → a = b) → normalized x → normalized y →
  on_coefficients f x = on_coefficients f y → x = y.
Proof.
  intros Hinj Hx Hy Heq. apply element_ext; [done|done|].
  intros g. apply Hinj.
  by rewrite <- !(coefficient_on_coefficients f Hf), Heq.
Qed.

End LiftedLinear.

(** X4: the lift of a morphism of rings [f] is semilinear: it sends the
    zero element to the zero element, and the multiple of an element by
    a scalar [c] to the multiple of the image by [f c]. *)
Theorem lifted_function_semilinear
    `{Framework} {I : Type} `{Countable I}
    {K K' : Type} `{IsRing K} `{IsRing K'} `{!EqDecision K} `{!EqDecision K'}
    (F : GroupAlgebraFunctor.t) (f : Morphism K K')
    (hh : Morphism (gmap I K) (gmap I K')) :
  RingMorphism (function f) →
  GroupAlgebraFunctor._apply_functor_to_morphism F f = Ok hh →
  function hh ∅ = ∅ ∧
  ∀ (c : K) (x : gmap I K),
    function hh (scalar_mul c x) = scalar_mul (function f c) (function hh x).
Proof.
  intros Hf Hhh.
  apply apply_functor_to_morphism_inv in Hhh as (A & B & _ & _ & ->); simpl.
  split; [apply on_coefficients_empty|].
  intros c x. by apply on_coefficients_scalar_mul.
Qed.

Lemma lifted_function_semilinear_witness :
  function Examples.lift_mod_2 ∅ = ∅ ∧
  function Examples.lift_mod_2 (scalar_mul 3%Z Examples.element_a)
  = scalar_mul true (function Examples.lift_mod_2 Examples.element_a).
Proof.
  destruct (lifted_function_semilinear Examples.F_SymmetricGroup2
              Examples.reduction_mod_2 Examples.lift_mod_2
              Z_odd_ring_morphism eq_refl) as [Hzero Hscal].
  split; [exact Hzero|exact (Hscal 3%Z Examples.element_a)].
Defined.

(** X5: the lift of an injective morphism of rings applies the morphism
    to every coefficient and keeps every term, and it is injective on
    the elements of the group algebra. *)
Theorem lifted_function_injective
    `{Framework} {I : Type} `{Countable I}
    {K K' : Type} `{IsRing K} `{IsRing K'} `{!EqDecision K} `{!EqDecision K'}
    (F : GroupAlgebraFunctor.t) (f : Morphism K K')
    (hh : Morphism (gmap I K) (gmap I K')) :
  RingMorphism (function f) →
  (∀ a b, function f a = function f b → a = b) →
  GroupAlgebraFunctor._apply_functor_to_morphism F f = Ok hh →
  (∀ x : gmap I K, normalized x → function hh x = function f <$> x) ∧
  (∀ x y : gmap I K, normalized x → normalized y →
     function hh x = function hh y → x = y).
Proof.
  intros Hf Hinj Hhh.
  apply apply_functor_to_morphism_inv in Hhh as (A & B & _ & _ & ->); simpl.
  split.
  - intros x Hx. by apply on_coefficients_injective_fmap.
  - intros x y. by apply on_coefficients_injective.
Qed.

Lemma lifted_function_injective_witness :
  function Examples.lift_identity_ZZ Examples.element_a
  = (λ a : Z, a) <$> Examples.element_a.
Proof.
  destruct (lifted_function_injective Examples.F_SymmetricGroup2
              Examples.identity_ZZ Examples.lift_identity_ZZ)
    as [Hfmap _].
  - apply identity_ring_morphism.
  - intros a b Hab. exact Hab.
  - reflexivity.
  - apply Hfmap. apply normalized_sum_of_terms.
Defined.

(** ** AlgebrasCategory: the result of the class call *)

(** X6: when every class nested in a category class has that class as
    base category class, the class call returns within two nested calls:
    with an instance of the base category class it builds the instance
    of [cls]; otherwise the first argument is taken as the base ring,
    the second argument is ignored, and the result is the instance of
    the class nested in the base category class, or the default category
    when there is none.  More calls allowed change nothing. *)
Theorem classcall_returns
    `{Framework} {CategoryClass Class : Type} `{EqDecision CategoryClass}
    (functor_category_of : Class → string)
    (_base_category_class : Class → CategoryClass)
    (getattr : CategoryClass → string → option Class)
    (cls : Class) (category R : AlgebrasCategory.Argument) (fuel : nat) :
  (∀ Cat name nested, getattr Cat name = Some nested →
     _base_category_class nested = Cat) →
  2 ≤ fuel →
  AlgebrasCategory.__classcall__ functor_category_of _base_category_class getattr
    fuel cls category R
  = Some
      (if AlgebrasCategory.isinstance category (_base_category_class cls)
       then AlgebrasCategory.UniqueRepresentation cls category R
       else
         match getattr (_base_category_class cls) (functor_category_of cls) with
         | Some nested =>
             AlgebrasCategory.UniqueRepresentation nested
               (AlgebrasCategory.ArgCategory
                  (AlgebrasCategory.Instantiate (_base_category_class cls)))
               category
         | None =>
             AlgebrasCategory.default_super_categories (functor_category_of cls)
               (AlgebrasCategory.Instantiate (_base_category_class cls)) category
         end).
Proof.
  intros Hnested Hfuel.
  destruct fuel as [|[|fuel]]; [lia|lia|].
  cbn [AlgebrasCategory.__classcall__].
  destruct (AlgebrasCategory.isinstance category (_base_category_class cls));
    [done|].
  unfold AlgebrasCategory.category_of_with.
  cbn [AlgebrasCategory.__class__].
  destruct (getattr (_base_category_class cls) (functor_category_of cls))
    as [nested|] eqn:Hget; [|done].
  cbn [AlgebrasCategory.__classcall__ AlgebrasCategory.isinstance
         AlgebrasCategory.__class__].
  rewrite (Hnested _ _ _ Hget).
  by rewrite bool_decide_eq_true_2.
Qed.

Lemma classcall_returns_witness :
  AlgebrasCategory.__classcall__ (H := Sage.framework) Examples.functor_category_of
    Examples.base_category_class Examples.nested_class
    3 (Examples.NestedAlgebras Examples.MonoidsClass)
    (AlgebrasCategory.ArgParent Examples.QQ)
    (AlgebrasCategory.ArgParent Examples.ZZ)
  = Some (AlgebrasCategory.UniqueRepresentation
            (Examples.NestedAlgebras Examples.MonoidsClass)
            (AlgebrasCategory.ArgCategory
               (AlgebrasCategory.Instantiate Examples.MonoidsClass))
            (AlgebrasCategory.ArgParent Examples.QQ)).
Proof.
  apply (classcall_returns (H := Sage.framework) Examples.functor_category_of
           Examples.base_category_class Examples.nested_class
           (Examples.NestedAlgebras Examples.MonoidsClass)
           (AlgebrasCategory.ArgParent (H := Sage.framework) Examples.QQ)
           (AlgebrasCategory.ArgParent (H := Sage.framework) Examples.ZZ) 3).
  - intros Cat name nested. unfold Examples.nested_class.
    destruct (String.eqb name "Algebras"); [|done]. by intros [= <-].
  - lia.
Defined.

(** ** The coproduct, the lift and the product *)

Section CoproductCompatibility.
Context {I : Type} `{Countable I}.
Context {K : Type} `{IsRing K} `{!EqDecision K}.
Local Open Scope ring_scope.
Import AlgebrasCategory.ParentMethods.

Lemma coproduct_product (op : I → I → I) (x y : gmap I K) :
  coproduct (product op x y)
  = product (λ p q, (op p.1 q.1, op p.2 q.2)) (coproduct x) (coproduct y).
Proof.
  apply element_ext; try apply normalized_sum_of_terms.
  intros [k1 k2]. rewrite coefficient_coproduct. unfold product.
  rewrite !coefficient_bilinear_extension_kernel.
  rewrite !coproduct_sum_of_terms.
  rewrite bigsum_terms_sum_of_terms_l, bigsum_fmap.
  destruct (decide (k1 = k2)) as [<-|Hne].
  - apply bigsum_ext. intros t1 _; simpl.
    rewrite bigsum_terms_sum_of_terms_r, bigsum_fmap.
    apply bigsum_ext. intros t2 _; simpl.
    unfold kernel, product_on_basis; simpl.
    rewrite !coefficient_monomial.
    destruct (decide (op t1.1 t2.1 = k1)) as [->|Hk].
    + by rewrite decide_True.
    + rewrite decide_False; [done|]. by intros [= ?].
  - symmetry. apply bigsum_zero. intros t1 _; simpl.
    rewrite bigsum_terms_sum_of_terms_r, bigsum_fmap.
    apply bigsum_zero. intros t2 _; simpl.
    unfold kernel, product_on_basis; simpl.
    rewrite coefficient_monomial, decide_False; [apply r_mul_0_r|].
    intros [= ? ?]. congruence.
Qed.

Lemma coproduct_injective (x y : gmap I K) :
  normalized x → normalized y → coproduct x = coproduct y → x = y.
Proof.
  intros Hx Hy Heq. apply element_ext; [done|done|].
  intros g.
  pose proof (coefficient_coproduct x g g) as Hxg.
  pose proof (coefficient_coproduct y g g) as Hyg.
  rewrite decide_True in Hxg, Hyg by done.
  by rewrite <- Hxg, <- Hyg, Heq.
Qed.

End CoproductCompatibility.

Section CoproductNaturality.
Context {I : Type} `{Countable I}.
Context {K K' : Type} `{IsRing K} `{IsRing K'} `{!EqDecision K} `{!EqDecision K'}.
Context (f : K → K') (Hf : RingMorphism f).
Local Open Scope ring_scope.
Import AlgebrasCategory.ParentMethods GroupAlgebraFunctor.

Lemma on_coefficients_coproduct (x : gmap I K) :
  on_coefficients f (coproduct x) = coproduct (on_coefficients f x).
Proof.
  apply element_ext; try apply normalized_sum_of_terms.
  intros [g h].
  rewrite (coefficient_on_coefficients f Hf), !coefficient_coproduct.
  destruct (decide (g = h)).
  - by rewrite (coefficient_on_coefficients f Hf).
  - apply (rm_zero f Hf).
Qed.

End CoproductNaturality.

(** X8: the coproduct is compatible with the multiplication: the
    coproduct of a product is the product of the coproducts, the basis
    of the tensor square being multiplied componentwise; in particular
    the product of [coproduct_on_basis(g)] and [coproduct_on_basis(h)]
    is [coproduct_on_basis] of the product of [g] and [h]. *)
Theorem coproduct_multiplicative
    {I : Type} `{Countable I} {K : Type} `{IsRing K} `{!EqDecision K}
    (op : I → I → I) :
  (∀ x y : gmap I K,
     AlgebrasCategory.ParentMethods.coproduct (product op x y)
     = product (λ p q, (op p.1 q.1, op p.2 q.2))
         (AlgebrasCategory.ParentMethods.coproduct x)
         (AlgebrasCategory.ParentMethods.coproduct y)) ∧
  (∀ g h : I,
     product (λ p q, (op p.1 q.1, op p.2 q.2))
       (AlgebrasCategory.ParentMethods.coproduct_on_basis g)
       (AlgebrasCategory.ParentMethods.coproduct_on_basis h)
     = (AlgebrasCategory.ParentMethods.coproduct_on_basis (op g h)
        : gmap (I * I) K)).
Proof.
  split.
  - apply coproduct_product.
  - intros g h. rewrite !coproduct_on_basis_monomial.
    apply (product_monomial (λ p q, (op p.1 q.1, op p.2 q.2)) (g, g) (h, h)).
Qed.

Lemma coproduct_multiplicative_witness :
  AlgebrasCategory.ParentMethods.coproduct
    (product xorb Examples.element_a Examples.element_b)
  = product (λ p q, (xorb p.1 q.1, xorb p.2 q.2))
      (AlgebrasCategory.ParentMethods.coproduct Examples.element_a)
      (AlgebrasCategory.ParentMethods.coproduct Examples.element_b).
Proof.
  exact (proj1 (coproduct_multiplicative (I := bool) (K := Z) xorb)
           Examples.element_a Examples.element_b).
Defined.

(** X9: the coproduct commutes with the lift of a morphism of rings to
    the coefficients, and it is injective: an element is determined by
    its coproduct. *)
Theorem coproduct_natural_and_injective
    {I : Type} `{Countable I}
    {K K' : Type} `{IsRing K} `{IsRing K'} `{!EqDecision K} `{!EqDecision K'}
    (f : K → K') :
  RingMorphism f →
  (∀ x : gmap I K,
     GroupAlgebraFunctor.on_coefficients f (AlgebrasCategory.ParentMethods.coproduct x)
     = AlgebrasCategory.ParentMethods.coproduct
         (GroupAlgebraFunctor.on_coefficients f x)) ∧
  (∀ x y : gmap I K, normalized x → normalized y →
     AlgebrasCategory.ParentMethods.coproduct x
     = AlgebrasCategory.ParentMethods.coproduct y → x = y).
Proof.
  intros Hf. split.
  - intros x. by apply on_coefficients_coproduct.
  - apply coproduct_injective.
Qed.

Lemma coproduct_natural_and_injective_witness :
  GroupAlgebraFunctor.on_coefficients Z.odd
    (AlgebrasCategory.ParentMethods.coproduct Examples.element_a)
  = AlgebrasCategory.ParentMethods.coproduct
      (GroupAlgebraFunctor.on_coefficients Z.odd Examples.element_a).
Proof.
  exact (proj1 (coproduct_natural_and_injective (I := bool) Z.odd
                  Z_odd_ring_morphism) Examples.element_a).
Defined.
